(** * PlayDatabase (pikaraoke/lib/database.py): identity resolution, play
    ledger, queries and bulk import, as functions on an explicit database
    state.

    Every method of [PlayDatabase] opens a connection, runs its statements
    and commits; a method is therefore a function from the database state
    to a result and the next state.  The three tables are the fields of
    [database]. *)

From Stdlib Require Import ZArith String Ascii List DecimalString SpecFloat.
From stdpp Require Import gmap strings list sorting.

Set Warnings "-register-all".

Local Open Scope string_scope.
Local Open Scope Z_scope.

(** ** Python values *)

Module Py.

(** Python strings are sequences of code points; [string] holds the code
    points below 256. *)

(** [str.isspace] on one character. *)
Definition isspace (c : ascii) : bool :=
  let n := nat_of_ascii c in
  ((9 <=? n)%nat && (n <=? 13)%nat) || ((28 <=? n)%nat && (n <=? 32)%nat)
  || (n =? 133)%nat || (n =? 160)%nat.

Fixpoint lstrip (s : string) : string :=
  match s with
  | String c s' => if isspace c then lstrip s' else s
  | EmptyString => EmptyString
  end.

(** Strips trailing white space: a character is kept when it is not a
    space or something is kept after it. *)
Fixpoint rstrip (s : string) : string :=
  match s with
  | String c s' =>
      match rstrip s' with
      | EmptyString => if isspace c then EmptyString else String c EmptyString
      | r => String c r
      end
  | EmptyString => EmptyString
  end.

(** [s.strip()] *)
Definition strip (s : string) : string := rstrip (lstrip s).

(** Truth value of an optional string argument: [None] and [""] are
    false. *)
Definition truthy (o : option string) : bool :=
  match o with
  | Some s => negb (s =? "")%string
  | None => false
  end.

(** The value [json.loads] returns. *)
Inductive json : Type :=
| JNull
| JBool (b : bool)
| JInt (z : Z)
| JFloat (f : spec_float)
| JStr (s : string)
| JArr (l : list json)
| JObj (items : list (string * json)).

(** Items of a [dict], looked up by key. *)
Fixpoint dict_lookup (k : string) (items : list (string * json)) : option json :=
  match items with
  | (k', v) :: rest => if (k =? k')%string then Some v else dict_lookup k rest
  | [] => None
  end.

(** Exceptions the modelled code can raise. *)
Inductive exn : Type :=
| KeyError (key : string)
| AttributeError
| ValueError (msg : string)
| OverflowError
| BindError          (* sqlite3: parameter of an unsupported type *)
| IntegrityError.    (* sqlite3: NOT NULL constraint failed *)

End Py.

(** ** SQLite values *)

Module Sqlite.
Import Py.

(** A value as SQLite stores it. *)
Inductive value : Type :=
| SNull
| SInt (z : Z)
| SReal (f : spec_float)
| SText (s : string).

Definition int64 (z : Z) : bool := (- 2 ^ 63 <=? z) && (z <? 2 ^ 63).

(** How the sqlite3 module binds a Python value as a parameter. *)
Definition bind (v : json) : exn + value :=
  match v with
  | JNull => inr SNull
  | JBool b => inr (SInt (if b then 1 else 0))
  | JInt z => if int64 z then inr (SInt z) else inl OverflowError
  | JFloat S754_nan => inr SNull
  | JFloat f => inr (SReal f)
  | JStr s => inr (SText s)
  | JArr _ | JObj _ => inl BindError
  end.

(** [LIMIT limit OFFSET offset]: a negative limit is no limit, a negative
    offset is 0. *)
Definition limit_offset {A} (limit offset : Z) (rows : list A) : list A :=
  let rest := drop (Z.to_nat offset) rows in
  if limit <? 0 then rest else take (Z.to_nat limit) rest.

End Sqlite.

(** ** The database *)

(** A row of [plays]. *)
Record play : Type := Play {
  id : Z;
  timestamp : string;
  canonical_name : string;
  song : string;
  duration : Sqlite.value;
  completed : bool
}.

(** The three tables; [plays_seq] is the largest id [plays] has used
    (AUTOINCREMENT). *)
Record database : Type := Database {
  users : gset string;
  user_aliases : gmap string string;
  plays : list play;
  plays_seq : Z
}.

(** [init_db] on a new file. *)
Definition init_db : database :=
  {| users := ∅; user_aliases := ∅; plays := []; plays_seq := 0 |}.

Definition set_users (u : gset string) (db : database) : database :=
  {| users := u; user_aliases := user_aliases db;
     plays := plays db; plays_seq := plays_seq db |}.

Definition set_user_aliases (a : gmap string string) (db : database) : database :=
  {| users := users db; user_aliases := a;
     plays := plays db; plays_seq := plays_seq db |}.

Definition set_plays (ps : list play) (db : database) : database :=
  {| users := users db; user_aliases := user_aliases db;
     plays := ps; plays_seq := plays_seq db |}.

(** [INSERT OR IGNORE INTO users (canonical_name) VALUES (?)] *)
Definition insert_or_ignore_user (name : string) (db : database) : database :=
  set_users ({[name]} ∪ users db) db.

(** ** Identity resolver *)

Definition _resolve_canonical_user (db : database) (user : string)
  : string * database :=
  match user_aliases db !! user with
  | Some canonical => (canonical, db)
  | None => (user, insert_or_ignore_user user db)
  end.

Definition set_user_alias (db : database) (alias canonical_user : string)
  : database :=
  let db := insert_or_ignore_user canonical_user db in
  set_user_aliases (<[alias := canonical_user]> (user_aliases db)) db.

Definition get_user_aliases (db : database) : list (string * string) :=
  map_to_list (user_aliases db).

Definition remove_user_alias (db : database) (alias : string) : database :=
  set_user_aliases (delete alias (user_aliases db)) db.

Section PlayDatabase.

(** SQLite's [strftime(format, time-value)] at the time of the query;
    [None] is NULL.  [date(x)] is [strftime('%Y-%m-%d', x)]. *)
Variable strftime : string -> string -> option string.

(** The text SQLite gives a REAL stored in a column of TEXT affinity. *)
Variable real_text : spec_float -> string.

(** ** Play ledger *)

(** [INSERT INTO plays (timestamp, canonical_name, song, duration, completed)] *)
Definition insert_play (ts name title : string) (d : Sqlite.value) (c : bool)
  (db : database) : database :=
  let n := plays_seq db + 1 in
  {| users := users db; user_aliases := user_aliases db;
     plays := plays db ++ [Play n ts name title d c]; plays_seq := n |}.

(** [now] is the value of [datetime('now')] at the call. *)
Definition add_play (db : database) (song user : string)
  (duration : Sqlite.value) (completed : bool) (now : string) : database :=
  let '(canonical_name, db) := _resolve_canonical_user db user in
  insert_play now canonical_name song duration completed db.

(** [UPDATE plays SET ... WHERE id = ?]; [play_id] is the integer the bound
    value stands for, [None] when it stands for none. *)
Definition update_where_id (play_id : option Z) (f : play -> play)
  (db : database) : database :=
  set_plays
    (map (fun p => if decide (Some (id p) = play_id) then f p else p) (plays db))
    db.

Definition set_canonical_name (name : string) (p : play) : play :=
  Play (id p) (timestamp p) name (song p) (duration p) (completed p).

Definition set_song (title : string) (p : play) : play :=
  Play (id p) (timestamp p) (canonical_name p) title (duration p) (completed p).

Definition update_play (db : database) (play_id : option Z)
  (user song : option string) : database :=
  let db :=
    match user with
    | Some u =>
        if Py.truthy user then
          let '(canonical_name, db) := _resolve_canonical_user db u in
          update_where_id play_id (set_canonical_name canonical_name) db
        else db
    | None => db
    end in
  match song with
  | Some s =>
      if Py.truthy song then update_where_id play_id (set_song s) db else db
  | None => db
  end.

(** ** Query engine *)

(** The WHERE clause [_build_filter_clause] builds, with its parameters. *)
Record where_clause : Type := Where {
  canonical_name_is : option string;
  date_is : option string
}.

Definition _build_filter_clause (db : database)
  (user_filter date_filter : option string) : where_clause * database :=
  let '(by_user, db) :=
    match user_filter with
    | Some u =>
        if Py.truthy user_filter then
          let '(canonical_user, db) := _resolve_canonical_user db u in
          (Some canonical_user, db)
        else (None, db)
    | None => (None, db)
    end in
  let by_date := if Py.truthy date_filter then date_filter else None in
  (Where by_user by_date, db).

(** [a = b] in SQL is true only when neither side is NULL. *)
Definition sql_eq (a b : option string) : Prop :=
  match a, b with
  | Some x, Some y => x = y
  | _, _ => False
  end.

#[global] Instance sql_eq_dec a b : Decision (sql_eq a b).
Proof. destruct a, b; simpl; apply _. Defined.

Definition satisfies (w : where_clause) (p : play) : Prop :=
  match canonical_name_is w with
  | Some c => canonical_name p = c
  | None => True
  end
  /\
  match date_is w with
  | Some d => sql_eq (strftime "%Y-%m-%d" (timestamp p)) (Some d)
  | None => True
  end.

#[global] Instance satisfies_dec w p : Decision (satisfies w p).
Proof.
  unfold satisfies.
  destruct (canonical_name_is w), (date_is w); apply _.
Defined.

(** [ORDER BY p.timestamp DESC].  SQLite leaves the order of rows with
    equal keys open; [merge_sort] fixes one. *)
Definition timestamp_desc (p q : play) : Prop :=
  Is_true (String.leb (timestamp q) (timestamp p)).

#[global] Instance timestamp_desc_dec p q : Decision (timestamp_desc p q).
Proof. unfold timestamp_desc. apply _. Defined.

Definition get_last_plays (db : database) (limit offset : Z)
  (date_filter user_filter : option string)
  : list (string * string * string * bool) * database :=
  let '(w, db) := _build_filter_clause db user_filter date_filter in
  let rows := merge_sort timestamp_desc (filter (satisfies w) (plays db)) in
  (map (fun p => (timestamp p, canonical_name p, song p, completed p))
       (Sqlite.limit_offset limit offset rows), db).

Definition get_plays_count (db : database)
  (date_filter user_filter : option string) : nat * database :=
  let '(w, db) := _build_filter_clause db user_filter date_filter in
  (length (filter (satisfies w) (plays db)), db).

Definition get_plays_by_user (db : database) (user date_filter : option string)
  : list (Z * string * string * string * bool) * database :=
  let '(canonical_user, db) :=
    match user with
    | Some u =>
        if Py.truthy user then
          let '(c, db) := _resolve_canonical_user db u in (Some c, db)
        else (None, db)
    | None => (None, db)
    end in
  let '(w, db) := _build_filter_clause db canonical_user date_filter in
  let rows := merge_sort timestamp_desc (filter (satisfies w) (plays db)) in
  (map (fun p => (id p, timestamp p, canonical_name p, song p, completed p))
       rows, db).

(** [SELECT key, COUNT( * ) ... GROUP BY key] over [rows]: one row per
    distinct key. *)
Definition group_count {A} (key : A -> string) (rows : list A)
  : list (string * nat) :=
  map (fun k => (k, length (filter (fun r => key r = k) rows)))
      (remove_dups (map key rows)).

Inductive column : Type := ColCanonicalName | ColCount.

Definition column_le (col : column) (x y : string * nat) : bool :=
  match col with
  | ColCanonicalName => String.leb (fst x) (fst y)
  | ColCount => Nat.leb (snd x) (snd y)
  end.

(** [ORDER BY col order], [order] being ASC or DESC. *)
Definition order_by (col : column) (order : string) (x y : string * nat) : Prop :=
  Is_true (if String.eqb order "ASC" then column_le col x y
           else column_le col y x).

#[global] Instance order_by_dec col order x y : Decision (order_by col order x y).
Proof. unfold order_by. apply _. Defined.

Definition get_top_songs (db : database) (limit : Z) : list (string * nat) :=
  let rows := filter (fun p => completed p = true) (plays db) in
  Sqlite.limit_offset limit 0
    (merge_sort (order_by ColCount "DESC") (group_count song rows)).

Definition get_top_users (db : database) (limit offset : Z)
  (sort_by sort_order : string) : list (string * nat) :=
  let sort_by :=
    if decide (sort_by ∈ ["user"; "count"]) then sort_by else "count" in
  let sort_order :=
    if decide (sort_order ∈ ["ASC"; "DESC"]) then sort_order else "DESC" in
  let order_clause :=
    if String.eqb sort_by "user" then (ColCanonicalName, sort_order)
    else (ColCount, sort_order) in
  let rows :=
    filter (fun p => canonical_name p ∈ users db /\ completed p = true)
           (plays db) in
  Sqlite.limit_offset limit offset
    (merge_sort (order_by (fst order_clause) (snd order_clause))
                (group_count canonical_name rows)).

Definition get_top_users_count (db : database) : nat :=
  length (remove_dups
            (map canonical_name
                 (filter (fun p => completed p = true) (plays db)))).

Definition get_top_songs_by_period (db : database) (period : string)
  (limit : Z) : Py.exn + list (string * nat) :=
  let date_func :=
    if String.eqb period "day" then Some "%Y-%m-%d"
    else if String.eqb period "month" then Some "%Y-%m"
    else if String.eqb period "year" then Some "%Y"
    else None in
  match date_func with
  | None => inl (Py.ValueError "Invalid period")
  | Some fmt =>
      let rows :=
        filter (fun p => sql_eq (strftime fmt (timestamp p)) (strftime fmt "now")
                         /\ completed p = true)
               (plays db) in
      inr (Sqlite.limit_offset limit 0
             (merge_sort (order_by ColCount "DESC") (group_count song rows)))
  end.

(** ** Bulk importer *)

(** Code that can raise: either the exception or the value. *)
Definition raise {A} (e : Py.exn) : Py.exn + A := inl e.

Definition try_bind {A B} (m : Py.exn + A) (k : A -> Py.exn + B) : Py.exn + B :=
  match m with
  | inl e => inl e
  | inr a => k a
  end.

Notation "x <- m ;; k" := (try_bind m (fun x => k))
  (at level 20, m at level 99, k at level 200, only parsing).
Notation "' p <- m ;; k" := (try_bind m (fun p => k))
  (at level 20, p pattern, m at level 99, k at level 200, only parsing).

(** A line of the log file as [json.loads(line.strip())] sees it: the value
    it returns, or [None] when it raises [JSONDecodeError]. *)
Definition log_line : Type := option Py.json.

(** [entry.get("user", "").strip()]: only a dict has [get], only a str has
    [strip]. *)
Definition entry_user (entry : Py.json) : Py.exn + string :=
  match entry with
  | Py.JObj items =>
      match default (Py.JStr "") (Py.dict_lookup "user" items) with
      | Py.JStr s => inr (Py.strip s)
      | _ => raise Py.AttributeError
      end
  | _ => raise Py.AttributeError
  end.

(** [entry[key]] *)
Definition entry_item (key : string) (entry : Py.json) : Py.exn + Py.json :=
  match entry with
  | Py.JObj items =>
      match Py.dict_lookup key items with
      | Some v => inr v
      | None => raise (Py.KeyError key)
      end
  | _ => raise Py.AttributeError
  end.

(** [entry.get("duration", 0)] *)
Definition entry_duration (entry : Py.json) : Py.exn + Py.json :=
  match entry with
  | Py.JObj items => inr (default (Py.JInt 0) (Py.dict_lookup "duration" items))
  | _ => raise Py.AttributeError
  end.

(** The first loop: [users_to_resolve] and [entries_to_insert].  A line
    that does not decode is reported with [logging.error] and left out; the
    handler for [KeyError] guards a block that raises none. *)
Fixpoint read_entries (lines : list log_line)
  : Py.exn + (gset string * list Py.json) :=
  match lines with
  | [] => inr (∅, [])
  | None :: lines => read_entries lines
  | Some entry :: lines =>
      user <- entry_user entry ;;
      if String.eqb user "" then read_entries lines
      else
        '(users_to_resolve, entries_to_insert) <- read_entries lines ;;
        inr ({[user]} ∪ users_to_resolve, entry :: entries_to_insert)
  end.

(** The second loop: [user_map]. *)
Definition resolve_users (db : database) (users_to_resolve : list string)
  : gmap string string * database :=
  foldl (fun '(user_map, db) user =>
           let '(canonical_name, db) := _resolve_canonical_user db user in
           (<[user := canonical_name]> user_map, db))
        (∅, db) users_to_resolve.

Definition decimal (z : Z) : string := NilZero.string_of_int (Z.to_int z).

(** A value as a column of TEXT affinity holds it, and as [=] compares it
    with such a column; [None] is NULL. *)
Definition text_affinity (v : Sqlite.value) : option string :=
  match v with
  | Sqlite.SNull => None
  | Sqlite.SInt z => Some (decimal z)
  | Sqlite.SReal f => Some (real_text f)
  | Sqlite.SText s => Some s
  end.

(** [SELECT id FROM plays WHERE timestamp = ? AND canonical_name = ? AND
    song = ?] has a row. *)
Definition play_exists (ts : Sqlite.value) (name : string)
  (title : Sqlite.value) (db : database) : Prop :=
  Exists (fun p => text_affinity ts = Some (timestamp p)
                   /\ canonical_name p = name
                   /\ text_affinity title = Some (song p))
         (plays db).

#[global] Instance play_exists_dec ts name title db
  : Decision (play_exists ts name title db).
Proof. unfold play_exists. apply _. Defined.

(** One round of the third loop.  [timestamp] and [song] are NOT NULL. *)
Definition import_entry (user_map : gmap string string) (entry : Py.json)
  (db : database) : Py.exn + database :=
  user <- entry_user entry ;;
  canonical_name <-
    match user_map !! user with
    | Some c => inr c
    | None => raise (Py.KeyError user)
    end ;;
  ts <- entry_item "timestamp" entry ;;
  title <- entry_item "song" entry ;;
  ts <- Sqlite.bind ts ;;
  title <- Sqlite.bind title ;;
  if decide (play_exists ts canonical_name title db) then inr db
  else
    d <- entry_duration entry ;;
    d <- Sqlite.bind d ;;
    match text_affinity ts, text_affinity title with
    | Some ts, Some title => inr (insert_play ts canonical_name title d true db)
    | _, _ => raise Py.IntegrityError
    end.

Fixpoint import_entries (user_map : gmap string string)
  (entries_to_insert : list Py.json) (db : database) : Py.exn + database :=
  match entries_to_insert with
  | [] => inr db
  | entry :: rest =>
      db <- import_entry user_map entry db ;;
      import_entries user_map rest db
  end.

(** What a call leaves behind: it returned, or it raised [e]; [db] is the
    committed state either way. *)
Inductive outcome : Type :=
| Returned (db : database)
| Raised (e : Py.exn) (db : database).

Definition state_after (o : outcome) : database :=
  match o with
  | Returned db => db
  | Raised _ db => db
  end.

(** [log_file] is [None] when the path does not exist.  Each
    [_resolve_canonical_user] commits on a connection of its own; the
    inserts are on the outer connection, which commits at the end and rolls
    back when the block raises. *)
Definition populate_from_log (db : database) (log_file : option (list log_line))
  : outcome :=
  match log_file with
  | None => Returned db
  | Some lines =>
      match read_entries lines with
      | inl e => Raised e db
      | inr (users_to_resolve, entries_to_insert) =>
          let '(user_map, db) := resolve_users db (elements users_to_resolve) in
          match import_entries user_map entries_to_insert db with
          | inl e => Raised e db
          | inr db => Returned db
          end
      end
  end.

(** ** States the operations reach from a new database *)

Inductive reachable : database -> Prop :=
| reach_init_db : reachable init_db
| reach_resolve db user :
    reachable db -> reachable (snd (_resolve_canonical_user db user))
| reach_add_play db song user duration completed now :
    reachable db -> reachable (add_play db song user duration completed now)
| reach_update_play db play_id user song :
    reachable db -> reachable (update_play db play_id user song)
| reach_set_user_alias db alias canonical_user :
    reachable db -> reachable (set_user_alias db alias canonical_user)
| reach_remove_user_alias db alias :
    reachable db -> reachable (remove_user_alias db alias)
| reach_populate_from_log db log_file :
    reachable db -> reachable (state_after (populate_from_log db log_file))
| reach_get_last_plays db limit offset date_filter user_filter :
    reachable db ->
    reachable (snd (get_last_plays db limit offset date_filter user_filter))
| reach_get_plays_count db date_filter user_filter :
    reachable db -> reachable (snd (get_plays_count db date_filter user_filter))
| reach_get_plays_by_user db user date_filter :
    reachable db -> reachable (snd (get_plays_by_user db user date_filter)).

(** ** Distinct values *)

(** [ORDER BY] a TEXT column, ascending. *)
Definition text_asc (a b : string) : Prop := Is_true (String.leb a b).

#[global] Instance text_asc_dec a b : Decision (text_asc a b).
Proof. unfold text_asc. apply _. Defined.

(** [SELECT DISTINCT column FROM table ORDER BY column]: [order_by] is left
    out at the only call, so the order is that of the column itself. *)
Definition _get_distinct_values {A} (table : list A) (column : A -> string)
  : list string :=
  merge_sort text_asc (remove_dups (map column table)).

Definition get_distinct_songs (db : database) : list string :=
  _get_distinct_values (plays db) song.

(** [SELECT canonical_name FROM users UNION SELECT alias FROM user_aliases
    ORDER BY 1] *)
Definition get_distinct_users (db : database) : list string :=
  merge_sort text_asc (elements (users db ∪ dom (user_aliases db))).

(** [ORDER BY date DESC]: NULL is below every text, so it comes last. *)
Definition date_desc (a b : option string) : Prop :=
  match a, b with
  | _, None => True
  | None, Some _ => False
  | Some x, Some y => Is_true (String.leb y x)
  end.

#[global] Instance date_desc_dec a b : Decision (date_desc a b).
Proof. destruct a, b; simpl; apply _. Defined.

(** [SELECT DISTINCT date(timestamp) as date FROM plays ORDER BY date DESC];
    a time stamp [date] does not read gives NULL, here [None]. *)
Definition get_distinct_dates (db : database) : list (option string) :=
  merge_sort date_desc
    (remove_dups (map (fun p => strftime "%Y-%m-%d" (timestamp p)) (plays db))).

(** ** The history page (routes/history.py) *)

(** What the [try] block of [history] can raise. *)
Inductive page_error : Type :=
| ZeroDivisionError
| BindOverflow                 (* sqlite3: an int outside 64 bits *)
| QueryError (e : Py.exn).

(** [a // b] *)
Definition floordiv (a b : Z) : page_error + Z :=
  if b =? 0 then inl ZeroDivisionError else inr (a / b).

(** [rows[:n]] *)
Definition slice_to {A} (n : Z) (rows : list A) : list A :=
  if n <? 0 then take (Z.to_nat (Z.of_nat (length rows) + n)) rows
  else take (Z.to_nat n) rows.

(** The query string after [int(...)] and [request.args.get]. *)
Record history_args : Type := HistoryArgs {
  limit : Z;
  offset : Z;
  date_filter : option string;
  user_filter : option string;
  top_users_limit : Z;
  top_users_offset : Z;
  top_users_sort : string;
  top_users_order : string
}.

(** The values [history] hands to the template, the arguments apart;
    [flashed] is the error it flashes. *)
Record history_context : Type := HistoryContext {
  top_songs : list (string * nat);
  top_users : list (string * nat);
  last_plays : list (string * string * string * bool);
  top_songs_today : list (string * nat);
  top_songs_month : list (string * nat);
  top_songs_year : list (string * nat);
  has_more : bool;
  next_offset : Z;
  total_count : Z;
  current_page : Z;
  total_pages : Z;
  has_previous : bool;
  has_next : bool;
  prev_offset : Z;
  top_users_total_count : Z;
  top_users_current_page : Z;
  top_users_total_pages : Z;
  top_users_has_previous : bool;
  top_users_has_next : bool;
  top_users_next_offset : Z;
  top_users_prev_offset : Z;
  distinct_users : list string;
  distinct_dates : list (option string);
  flashed : option page_error
}.

(** The [except] branch. *)
Definition history_defaults (e : page_error) : history_context :=
  {| top_songs := []; top_users := []; last_plays := [];
     top_songs_today := []; top_songs_month := []; top_songs_year := [];
     has_more := false; next_offset := 0; total_count := 0;
     current_page := 1; total_pages := 1;
     has_previous := false; has_next := false; prev_offset := 0;
     top_users_total_count := 0; top_users_current_page := 1;
     top_users_total_pages := 1; top_users_has_previous := false;
     top_users_has_next := false; top_users_next_offset := 0;
     top_users_prev_offset := 0;
     distinct_users := []; distinct_dates := []; flashed := Some e |}.

Definition page_bind {A B} (m : page_error + A) (k : A -> page_error + B)
  : page_error + B :=
  match m with
  | inl e => inl e
  | inr a => k a
  end.

Notation "x <~ m ;; k" := (page_bind m (fun x => k))
  (at level 20, m at level 99, k at level 200, only parsing).

(** A LIMIT or OFFSET parameter has to fit SQLite's INTEGER. *)
Definition bound (n : Z) : page_error + unit :=
  if Sqlite.int64 n then inr tt else inl BindOverflow.

Definition period_songs (db : database) (period : string)
  : page_error + list (string * nat) :=
  match get_top_songs_by_period db period 10 with
  | inl e => inl (QueryError e)
  | inr rows => inr rows
  end.

(** The [try] block.  [get_last_plays] resolves the performer before it
    binds LIMIT and OFFSET, and the two filtered queries come first; what is
    raised later does not undo the resolver's insert. *)
Definition history (db : database) (a : history_args)
  : history_context * database :=
  let '(last_plays_full, db1) :=
    get_last_plays db (limit a + 1) (offset a) (date_filter a) (user_filter a) in
  match (_ <~ bound (limit a + 1) ;; bound (offset a)) with
  | inl e => (history_defaults e, db1)
  | inr _ =>
      let has_more := Z.of_nat (length last_plays_full) >? limit a in
      let last_plays := slice_to (limit a) last_plays_full in
      let '(count, db2) := get_plays_count db1 (date_filter a) (user_filter a) in
      let total_count := Z.of_nat count in
      let rest :=
        q <~ floordiv (offset a) (limit a) ;;
        let current_page := q + 1 in
        total_pages <~ floordiv (total_count + limit a - 1) (limit a) ;;
        let top_songs := get_top_songs db2 10 in
        _ <~ bound (top_users_limit a) ;;
        _ <~ bound (top_users_offset a) ;;
        let top_users :=
          get_top_users db2 (top_users_limit a) (top_users_offset a)
            (top_users_sort a) (top_users_order a) in
        let top_users_total_count := Z.of_nat (get_top_users_count db2) in
        uq <~ floordiv (top_users_offset a) (top_users_limit a) ;;
        let top_users_current_page := uq + 1 in
        top_users_total_pages <~
          floordiv (top_users_total_count + top_users_limit a - 1)
                   (top_users_limit a) ;;
        top_songs_today <~ period_songs db2 "day" ;;
        top_songs_month <~ period_songs db2 "month" ;;
        top_songs_year <~ period_songs db2 "year" ;;
        inr {| top_songs := top_songs; top_users := top_users;
               last_plays := last_plays;
               top_songs_today := top_songs_today;
               top_songs_month := top_songs_month;
               top_songs_year := top_songs_year;
               has_more := has_more;
               next_offset := offset a + limit a;
               total_count := total_count;
               current_page := current_page;
               total_pages := total_pages;
               has_previous := current_page >? 1;
               has_next := has_more;
               prev_offset := Z.max 0 (offset a - limit a);
               top_users_total_count := top_users_total_count;
               top_users_current_page := top_users_current_page;
               top_users_total_pages := top_users_total_pages;
               top_users_has_previous := top_users_current_page >? 1;
               top_users_has_next :=
                 top_users_current_page <? top_users_total_pages;
               top_users_next_offset := top_users_offset a + top_users_limit a;
               top_users_prev_offset :=
                 Z.max 0 (top_users_offset a - top_users_limit a);
               distinct_users := get_distinct_users db2;
               distinct_dates := get_distinct_dates db2;
               flashed := None |} in
      match rest with
      | inl e => (history_defaults e, db2)
      | inr page => (page, db2)
      end
  end.

(** ** Databases used in the examples *)

(** [strftime] on timestamps of the form YYYY-MM-DD HH:MM:SS, the clock
    standing at 2024-05-06 07:08:09. *)
Definition strftime_iso (fmt ts : string) : option string :=
  let t := if String.eqb ts "now" then "2024-05-06 07:08:09" else ts in
  if String.eqb fmt "%Y-%m-%d" then Some (substring 0 10 t)
  else if String.eqb fmt "%Y-%m" then Some (substring 0 7 t)
  else if String.eqb fmt "%Y" then Some (substring 0 4 t)
  else None.

(** alice sang twice, bob once. *)
Definition two_singers : database :=
  add_play
    (add_play
       (add_play init_db "Africa" "alice" Sqlite.SNull true "2024-05-06 01:00:00")
       "Jolene" "bob" Sqlite.SNull true "2024-05-06 02:00:00")
    "Africa" "alice" Sqlite.SNull true "2024-05-07 03:00:00".

(** The line [{"user": "alice", "song": "Africa"}]. *)
Definition entry_without_timestamp : Py.json :=
  Py.JObj [("user", Py.JStr "alice"); ("song", Py.JStr "Africa")].

(** The line [{"user": "bob", "song": "Jolene", "timestamp":
    "2024-05-06 02:00:00"}]. *)
Definition entry_with_timestamp : Py.json :=
  Py.JObj [("user", Py.JStr "bob"); ("song", Py.JStr "Jolene");
           ("timestamp", Py.JStr "2024-05-06 02:00:00")].

(** The first page of the history, one row a page. *)
Definition first_page : history_args :=
  HistoryArgs 1 0 None None 1 0 "count" "DESC".

(** ** Predicates used in the statements *)


(** Every play and every alias names a row of [users]. *)
Definition consistent (db : database) : Prop :=
  (forall p, p ∈ plays db -> canonical_name p ∈ users db)
  /\ (forall a c, user_aliases db !! a = Some c -> c ∈ users db).

(** [user_map] as a function of the alias table. *)
Definition user_map_of (aliases : gmap string string)
  (acc : gmap string string) (names : list string) : gmap string string :=
  foldl (fun m u => <[u := default u (aliases !! u)]> m) acc names.

(** A database that has every row of [db], in the same places. *)
Definition extends (db db' : database) : Prop :=
  exists more, plays db' = (plays db ++ more)%list.

(** ** Calls that can write *)

(** One call of a method that may change the database, with its
    arguments. *)
Inductive call : Type :=
| Call_resolve_canonical_user (user : string)
| Call_add_play (title user : string) (d : Sqlite.value) (c : bool)
    (now : string)
| Call_update_play (play_id : option Z) (user new_song : option string)
| Call_set_user_alias (alias canonical_user : string)
| Call_remove_user_alias (alias : string)
| Call_populate_from_log (log_file : option (list log_line))
| Call_get_last_plays (lim off : Z) (by_date by_user : option string)
| Call_get_plays_count (by_date by_user : option string)
| Call_get_plays_by_user (user by_date : option string)
| Call_history (a : history_args).

(** The database the call leaves. *)
Definition run (c : call) (db : database) : database :=
  match c with
  | Call_resolve_canonical_user user => snd (_resolve_canonical_user db user)
  | Call_add_play title user d c now => add_play db title user d c now
  | Call_update_play play_id user new_song =>
      update_play db play_id user new_song
  | Call_set_user_alias alias canonical_user =>
      set_user_alias db alias canonical_user
  | Call_remove_user_alias alias => remove_user_alias db alias
  | Call_populate_from_log log_file =>
      state_after (populate_from_log db log_file)
  | Call_get_last_plays lim off by_date by_user =>
      snd (get_last_plays db lim off by_date by_user)
  | Call_get_plays_count by_date by_user =>
      snd (get_plays_count db by_date by_user)
  | Call_get_plays_by_user user by_date =>
      snd (get_plays_by_user db user by_date)
  | Call_history a => snd (history db a)
  end.

(** [db'] has the aliases of [db], at least its users, and its plays
    followed by new ones. *)
Definition only_adds (db db' : database) : Prop :=
  users db ⊆ users db'
  /\ user_aliases db' = user_aliases db
  /\ extends db db'.

(** Ids as AUTOINCREMENT hands them out. *)
Definition ids_ok (db : database) : Prop :=
  NoDup (map id (plays db))
  /\ 0 <= plays_seq db
  /\ forall p, p ∈ plays db -> 0 < id p <= plays_seq db.

(** The (timestamp, canonical_name, song) the importer compares. *)
Definition triple (p : play) : string * string * string :=
  (timestamp p, canonical_name p, song p).

(** An entry with every field of the type the log writer gives it. *)
Definition well_formed_entry (entry : Py.json) : Prop :=
  exists items user ts title,
    entry = Py.JObj items
    /\ Py.dict_lookup "user" items = Some (Py.JStr user)
    /\ Py.dict_lookup "timestamp" items = Some (Py.JStr ts)
    /\ Py.dict_lookup "song" items = Some (Py.JStr title)
    /\ match Py.dict_lookup "duration" items with
       | None => True
       | Some (Py.JInt z) => Sqlite.int64 z = true
       | Some (Py.JFloat _) => True
       | Some _ => False
       end.

(** ** Identity resolver: properties *)

Lemma insert_or_ignore_user_present name db :
  name ∈ users db -> insert_or_ignore_user name db = db.
Proof.
  intros Hin. destruct db as [u a ps n]. unfold insert_or_ignore_user, set_users.
  simpl in *. f_equal. apply subseteq_union_1_L. by apply singleton_subseteq_l.
Qed.

Lemma resolve_alias db name c :
  user_aliases db !! name = Some c -> _resolve_canonical_user db name = (c, db).
Proof. intros H. unfold _resolve_canonical_user. by rewrite H. Qed.

Lemma resolve_not_alias db name :
  user_aliases db !! name = None ->
  _resolve_canonical_user db name = (name, insert_or_ignore_user name db).
Proof. intros H. unfold _resolve_canonical_user. by rewrite H. Qed.

Lemma resolve_plays db name : plays (snd (_resolve_canonical_user db name)) = plays db.
Proof. unfold _resolve_canonical_user. by destruct (user_aliases db !! name). Qed.

Lemma resolve_plays_seq db name :
  plays_seq (snd (_resolve_canonical_user db name)) = plays_seq db.
Proof. unfold _resolve_canonical_user. by destruct (user_aliases db !! name). Qed.

Lemma resolve_user_aliases db name :
  user_aliases (snd (_resolve_canonical_user db name)) = user_aliases db.
Proof. unfold _resolve_canonical_user. by destruct (user_aliases db !! name). Qed.

Lemma resolve_users_grow db name :
  users db ⊆ users (snd (_resolve_canonical_user db name)).
Proof.
  unfold _resolve_canonical_user.
  destruct (user_aliases db !! name); simpl; set_solver.
Qed.

(** C2: [_resolve_canonical_user] gives an alias precedence and otherwise
    inserts the name if it is missing.  For a registered alias it returns
    the mapped canonical name and leaves the database as it was.  For any
    other name it returns the name itself, the [users] table becomes the old
    one with the name added (every old row stays, nothing else changes), the
    database is not changed at all when the row was there already, and a
    second call with the same name returns the same name and changes
    nothing. *)
Theorem resolve_alias_precedence_then_insert_if_missing db name :
  (forall c, user_aliases db !! name = Some c ->
             _resolve_canonical_user db name = (c, db))
  /\ (user_aliases db !! name = None ->
      let '(r, db') := _resolve_canonical_user db name in
      r = name
      /\ name ∈ users db'
      /\ users db' = {[name]} ∪ users db
      /\ user_aliases db' = user_aliases db
      /\ plays db' = plays db
      /\ plays_seq db' = plays_seq db
      /\ (name ∈ users db -> db' = db)
      /\ _resolve_canonical_user db' name = (name, db')).
Proof.
  split.
  - intros c Hc. by apply resolve_alias.
  - intros Hnone. rewrite (resolve_not_alias _ _ Hnone).
    repeat split; try reflexivity.
    + simpl. set_solver.
    + apply insert_or_ignore_user_present.
    + rewrite resolve_not_alias by done.
      f_equal. apply insert_or_ignore_user_present. simpl. set_solver.
Qed.

(** C4: after [set_user_alias a c] the name [a] resolves to [c], whatever
    the database was before: also when [a] was resolved to itself by an
    earlier call, and also when [a] was an alias of another name (the last
    write wins).  After [remove_user_alias a] the name [a] resolves to
    itself again; [alias] is the primary key of [user_aliases], so no other
    row for [a] can be left. *)
Theorem set_alias_then_remove_alias_resolution db a c :
  fst (_resolve_canonical_user (set_user_alias db a c) a) = c
  /\ fst (_resolve_canonical_user
            (set_user_alias (snd (_resolve_canonical_user db a)) a c) a) = c
  /\ (forall c0,
        fst (_resolve_canonical_user
               (set_user_alias (set_user_alias db a c0) a c) a) = c)
  /\ fst (_resolve_canonical_user (remove_user_alias db a) a) = a
  /\ fst (_resolve_canonical_user
            (remove_user_alias (set_user_alias db a c) a) a) = a
  /\ user_aliases (remove_user_alias db a) !! a = None.
Proof.
  assert (Hset : forall d x, fst (_resolve_canonical_user (set_user_alias d a x) a) = x).
  { intros d x. unfold _resolve_canonical_user, set_user_alias. simpl.
    by rewrite lookup_insert_eq. }
  assert (Hdel : forall d, fst (_resolve_canonical_user (remove_user_alias d a) a) = a).
  { intros d. unfold _resolve_canonical_user, remove_user_alias. simpl.
    by rewrite lookup_delete_eq. }
  repeat split; auto.
  unfold remove_user_alias. simpl. apply lookup_delete_eq.
Qed.

(** ** Play ledger: properties *)

Lemma update_play_pointwise db play_id user new_song :
  exists g : play -> play,
    plays (update_play db play_id user new_song) = map g (plays db)
    /\ forall p,
        id (g p) = id p
        /\ timestamp (g p) = timestamp p
        /\ duration (g p) = duration p
        /\ completed (g p) = completed p
        /\ (Some (id p) <> play_id -> g p = p)
        /\ (Py.truthy user = false -> canonical_name (g p) = canonical_name p)
        /\ (Py.truthy new_song = false -> song (g p) = song p)
        /\ (forall u, user = Some u -> Py.truthy user = true ->
            Some (id p) = play_id ->
            canonical_name (g p) = fst (_resolve_canonical_user db u))
        /\ (forall s, new_song = Some s -> Py.truthy new_song = true ->
            Some (id p) = play_id -> song (g p) = s).
Proof.
  set (upd (b : bool) (f : play -> play) (p : play) :=
         if b then (if decide (Some (id p) = play_id) then f p else p) else p).
  exists (fun p =>
            upd (Py.truthy new_song) (set_song (default "" new_song))
              (upd (Py.truthy user)
                 (set_canonical_name
                    (fst (_resolve_canonical_user db (default "" user)))) p)).
  split.
  - unfold update_play, upd.
    destruct user as [u|], new_song as [s|]; simpl;
      repeat match goal with
             | |- context [negb ?b] => destruct b; simpl
             end;
      try (pose proof (resolve_plays db u) as Hpl;
           destruct (_resolve_canonical_user db u) as [c db1]; simpl in Hpl);
      unfold update_where_id, set_plays; simpl;
      rewrite ?map_map, ?map_id; try congruence;
      try (symmetry; apply map_id).
  - intros p. unfold upd.
    destruct (Py.truthy user) eqn:Hu, (Py.truthy new_song) eqn:Hs;
      repeat case_decide; simpl;
      repeat split; intros; simplify_eq; try done.
Qed.

(** C9: [update_play] keeps the number and the order of the rows of
    [plays]; in every row the id, the time stamp, the duration and the
    completion flag stay; a row whose id is not [play_id] is unchanged; a
    field that is not given (absent or empty) is unchanged in every row; a
    field that is given is written in the rows whose id is [play_id], the
    performer after resolution.  When no row has the id [play_id] the whole
    [plays] table is unchanged.  The operation is a total function: it
    returns a database for every input and raises nothing. *)
Theorem update_play_changes_only_given_fields db play_id user new_song :
  let db' := update_play db play_id user new_song in
  length (plays db') = length (plays db)
  /\ (forall i p, plays db !! i = Some p ->
        exists p', plays db' !! i = Some p'
          /\ id p' = id p
          /\ timestamp p' = timestamp p
          /\ duration p' = duration p
          /\ completed p' = completed p
          /\ (Some (id p) <> play_id -> p' = p)
          /\ (Py.truthy user = false -> canonical_name p' = canonical_name p)
          /\ (Py.truthy new_song = false -> song p' = song p)
          /\ (forall u, user = Some u -> Py.truthy user = true ->
              Some (id p) = play_id ->
              canonical_name p' = fst (_resolve_canonical_user db u))
          /\ (forall s, new_song = Some s -> Py.truthy new_song = true ->
              Some (id p) = play_id -> song p' = s))
  /\ ((forall p, p ∈ plays db -> Some (id p) <> play_id) ->
      plays db' = plays db).
Proof.
  intros db'. subst db'.
  destruct (update_play_pointwise db play_id user new_song) as (g & Hg & Hp).
  rewrite Hg. split; [by rewrite length_map|]. split.
  - intros i p Hi. exists (g p). split.
    + change (map g (plays db)) with (g <$> plays db).
      by rewrite list_lookup_fmap, Hi.
    + apply Hp.
  - intros Hnone. rewrite <- (map_id (plays db)) at 2.
    apply map_ext_in. intros p Hin. apply Hp, Hnone. by apply list_elem_of_In.
Qed.

(** ** Query engine: the filter *)

Lemma build_filter_clause_unfiltered db user_filter date_filter :
  Py.truthy user_filter = false ->
  _build_filter_clause db user_filter date_filter
  = (Where None (if Py.truthy date_filter then date_filter else None), db).
Proof.
  intros Hf. unfold _build_filter_clause.
  destruct user_filter as [u|]; [|done]. by rewrite Hf.
Qed.

Lemma build_filter_clause_filtered db u date_filter :
  u <> "" ->
  _build_filter_clause db (Some u) date_filter
  = (Where (Some (fst (_resolve_canonical_user db u)))
           (if Py.truthy date_filter then date_filter else None),
     snd (_resolve_canonical_user db u)).
Proof.
  intros Hu. unfold _build_filter_clause. simpl.
  destruct (String.eqb_spec u ""); [done|]. simpl.
  by destruct (_resolve_canonical_user db u).
Qed.

Lemma truthy_false_or_some o :
  Py.truthy o = false \/ exists u, o = Some u /\ u <> "".
Proof.
  destruct o as [u|]; [|by left]. simpl.
  destruct (String.eqb_spec u ""); [by left|right; eauto].
Qed.

Lemma build_filter_clause_plays db user_filter date_filter :
  plays (snd (_build_filter_clause db user_filter date_filter)) = plays db.
Proof.
  destruct (truthy_false_or_some user_filter) as [Hf|(u & -> & Hu)].
  - by rewrite build_filter_clause_unfiltered.
  - rewrite build_filter_clause_filtered by done. apply resolve_plays.
Qed.

Lemma build_filter_clause_user_aliases db user_filter date_filter :
  user_aliases (snd (_build_filter_clause db user_filter date_filter))
  = user_aliases db.
Proof.
  destruct (truthy_false_or_some user_filter) as [Hf|(u & -> & Hu)].
  - by rewrite build_filter_clause_unfiltered.
  - rewrite build_filter_clause_filtered by done. apply resolve_user_aliases.
Qed.

(** The clause depends on the database through [user_aliases] only. *)
Lemma build_filter_clause_same_aliases db1 db2 user_filter date_filter :
  user_aliases db1 = user_aliases db2 ->
  fst (_build_filter_clause db1 user_filter date_filter)
  = fst (_build_filter_clause db2 user_filter date_filter).
Proof.
  intros Ha.
  destruct (truthy_false_or_some user_filter) as [Hf|(u & -> & Hu)].
  - by rewrite !build_filter_clause_unfiltered.
  - rewrite !build_filter_clause_filtered by done. simpl.
    unfold _resolve_canonical_user. rewrite Ha.
    by destruct (user_aliases db2 !! u).
Qed.

Lemma get_plays_count_eq db date_filter user_filter :
  get_plays_count db date_filter user_filter
  = (length (filter (satisfies (fst (_build_filter_clause db user_filter date_filter)))
                    (plays db)),
     snd (_build_filter_clause db user_filter date_filter)).
Proof.
  unfold get_plays_count.
  pose proof (build_filter_clause_plays db user_filter date_filter) as Hp.
  destruct (_build_filter_clause db user_filter date_filter) as [w db'].
  simpl in *. by rewrite Hp.
Qed.

Lemma get_last_plays_eq db limit offset date_filter user_filter :
  get_last_plays db limit offset date_filter user_filter
  = (map (fun p => (timestamp p, canonical_name p, song p, completed p))
       (Sqlite.limit_offset limit offset
          (merge_sort timestamp_desc
             (filter (satisfies (fst (_build_filter_clause db user_filter date_filter)))
                     (plays db)))),
     snd (_build_filter_clause db user_filter date_filter)).
Proof.
  unfold get_last_plays.
  pose proof (build_filter_clause_plays db user_filter date_filter) as Hp.
  destruct (_build_filter_clause db user_filter date_filter) as [w db'].
  simpl in *. by rewrite Hp.
Qed.

Lemma limit_offset_unbounded {A} (limit : Z) (rows : list A) :
  limit < 0 -> Sqlite.limit_offset limit 0 rows = rows.
Proof.
  intros Hl. unfold Sqlite.limit_offset. simpl.
  destruct (Z.ltb_spec limit 0); [done|lia].
Qed.

(** C7: for every database, date filter and performer filter,
    [get_plays_count] returns the length of what [get_last_plays] returns
    with no limit (a negative LIMIT) and offset 0 under the same filters.
    Both build their WHERE clause with [_build_filter_clause]: the count is
    the number of rows of [plays] that satisfy the clause and the listing is
    a permutation of exactly those rows; the performer in the clause is the
    resolved one and the date is compared with [date(timestamp)].  The
    equality also holds when the two calls follow each other in either
    order, the second on the state the first left. *)
Theorem plays_count_is_length_of_unbounded_last_plays
  db date_filter user_filter limit :
  limit < 0 ->
  let w := fst (_build_filter_clause db user_filter date_filter) in
  let listing := get_last_plays db limit 0 date_filter user_filter in
  let counting := get_plays_count db date_filter user_filter in
  fst counting = length (fst listing)
  /\ fst counting = length (filter (satisfies w) (plays db))
  /\ fst listing ≡ₚ
       map (fun p => (timestamp p, canonical_name p, song p, completed p))
           (filter (satisfies w) (plays db))
  /\ fst (get_plays_count (snd listing) date_filter user_filter)
     = length (fst listing)
  /\ length (fst (get_last_plays (snd counting) limit 0 date_filter user_filter))
     = fst counting
  /\ (forall u, user_filter = Some u -> u <> "" ->
      canonical_name_is w = Some (fst (_resolve_canonical_user db u)))
  /\ (forall d p, date_filter = Some d -> d <> "" -> satisfies w p ->
      strftime "%Y-%m-%d" (timestamp p) = Some d).
Proof.
  intros Hl w listing counting. subst listing counting.
  assert (Hlen : forall c,
    length (map (fun p => (timestamp p, canonical_name p, song p, completed p))
              (Sqlite.limit_offset limit 0
                 (merge_sort timestamp_desc (filter (satisfies c) (plays db)))))
    = length (filter (satisfies c) (plays db))).
  { intros c. rewrite length_map, limit_offset_unbounded by done.
    apply Permutation_length, merge_sort_Permutation. }
  rewrite get_plays_count_eq, get_last_plays_eq. simpl.
  repeat split.
  - by rewrite Hlen.
  - rewrite limit_offset_unbounded by done.
    apply Permutation_map, merge_sort_Permutation.
  - rewrite get_plays_count_eq. simpl.
    rewrite build_filter_clause_plays, Hlen.
    rewrite (build_filter_clause_same_aliases _ db); [done|].
    apply build_filter_clause_user_aliases.
  - rewrite get_last_plays_eq. simpl.
    rewrite build_filter_clause_plays, Hlen.
    rewrite (build_filter_clause_same_aliases _ db); [done|].
    apply build_filter_clause_user_aliases.
  - intros u -> Hu. subst w. by rewrite build_filter_clause_filtered.
  - intros d p -> Hd [_ Hsat]. subst w.
    assert (Hw : date_is (fst (_build_filter_clause db user_filter (Some d))) = Some d).
    { unfold _build_filter_clause. simpl.
      destruct (String.eqb_spec d ""); [done|]. simpl.
      by destruct user_filter as [u|];
        [destruct (Py.truthy (Some u)); [destruct (_resolve_canonical_user db u)|]|]. }
    rewrite Hw in Hsat.
    destruct (strftime "%Y-%m-%d" (timestamp p)); simpl in Hsat; [by subst|done].
Qed.

(** ** Queries with a performer filter write to [users] *)




(** ** Query engine: grouping and ordering *)


Lemma group_count_length {A} (key : A -> string) (rows : list A) :
  length (group_count key rows) = length (remove_dups (map key rows)).
Proof. unfold group_count. apply length_map. Qed.

Lemma group_count_elem {A} (key : A -> string) (rows : list A) k n :
  (k, n) ∈ group_count key rows
  <-> n = length (filter (fun r => key r = k) rows) /\ (0 < n)%nat.
Proof.
  unfold group_count. rewrite list_elem_of_In, in_map_iff. split.
  - intros (k' & Heq & Hin). injection Heq as Hk Hn. subst k' n.
    split; [done|].
    apply list_elem_of_In, elem_of_remove_dups, list_elem_of_In, in_map_iff in Hin.
    destruct Hin as (r & Hr & Hin).
    assert (r ∈ filter (fun r => key r = k) rows) as Hf.
    { apply list_elem_of_filter. split; [done|]. by apply list_elem_of_In. }
    destruct (filter (fun r => key r = k) rows); [by apply elem_of_nil in Hf|].
    simpl. lia.
  - intros [-> Hpos]. exists k. split; [done|].
    apply list_elem_of_In, elem_of_remove_dups.
    destruct (filter (fun r => key r = k) rows) as [|r l] eqn:Hf; [simpl in Hpos; lia|].
    assert (r ∈ filter (fun r => key r = k) rows) as Hr by (rewrite Hf; left).
    apply list_elem_of_filter in Hr as [Hk Hr].
    apply list_elem_of_In, in_map_iff. exists r. split; [done|].
    by apply list_elem_of_In.
Qed.

#[global] Instance order_by_total col order : Total (order_by col order).
Proof.
  intros x y. unfold order_by, column_le.
  destruct (String.eqb order "ASC"), col;
    try (destruct (String.leb_total (fst x) (fst y)) as [->| ->]; simpl; tauto);
    try (destruct (String.leb_total (fst y) (fst x)) as [->| ->]; simpl; tauto);
    destruct (Nat.leb_spec (snd x) (snd y)), (Nat.leb_spec (snd y) (snd x));
    simpl; try tauto; lia.
Qed.




Lemma get_top_users_eq db limit offset sort_by sort_order :
  get_top_users db limit offset sort_by sort_order
  = Sqlite.limit_offset limit offset
      (merge_sort
         (order_by (if String.eqb sort_by "user" then ColCanonicalName
                    else ColCount)
                   (if String.eqb sort_order "ASC" then "ASC" else "DESC"))
         (group_count canonical_name
            (filter (fun p => canonical_name p ∈ users db /\ completed p = true)
                    (plays db)))).
Proof.
  unfold get_top_users.
  repeat case_decide; simpl;
    repeat match goal with
           | |- context [String.eqb ?a ?b] => destruct (String.eqb_spec a b)
           end;
    repeat match goal with
           | H : _ ∈ _ :: _ |- _ => apply elem_of_cons in H as [?|H]
           | H : _ ∈ [] |- _ => by apply elem_of_nil in H
           end;
    simplify_eq; try done; set_solver.
Qed.


(** ** Referential integrity of reachable databases *)

Lemma consistent_init_db : consistent init_db.
Proof.
  split; simpl.
  - intros p Hp. by apply elem_of_nil in Hp.
  - intros a c Hc. by rewrite lookup_empty in Hc.
Qed.

Lemma consistent_resolve db user :
  consistent db ->
  consistent (snd (_resolve_canonical_user db user))
  /\ fst (_resolve_canonical_user db user)
     ∈ users (snd (_resolve_canonical_user db user)).
Proof.
  intros [Hp Ha]. unfold _resolve_canonical_user.
  destruct (user_aliases db !! user) as [c|] eqn:Hc; simpl.
  - split; [by split|]. by eapply Ha.
  - split; [split|]; simpl.
    + intros p Hin. apply elem_of_union_r. by apply Hp.
    + intros a c Hl. apply elem_of_union_r. by eapply Ha.
    + set_solver.
Qed.

Lemma consistent_insert_play db ts name title d c :
  consistent db -> name ∈ users db ->
  consistent (insert_play ts name title d c db).
Proof.
  intros [Hp Ha] Hn. split; simpl; [|done].
  intros p Hin. apply elem_of_app in Hin as [Hin|Hin]; [by apply Hp|].
  apply list_elem_of_singleton in Hin. by subst.
Qed.

Lemma consistent_add_play db title user d c now :
  consistent db -> consistent (add_play db title user d c now).
Proof.
  intros Hc. unfold add_play.
  destruct (consistent_resolve db user Hc) as [Hc' Hin].
  destruct (_resolve_canonical_user db user) as [name db1]. simpl in *.
  by apply consistent_insert_play.
Qed.

Lemma consistent_update_where_id db play_id f :
  consistent db ->
  (forall p, canonical_name (f p) ∈ users db) ->
  consistent (update_where_id play_id f db).
Proof.
  intros [Hp Ha] Hf. split; simpl; [|done].
  intros p Hin. apply list_elem_of_In, in_map_iff in Hin as (q & <- & Hq).
  case_decide; [apply Hf|]. by apply Hp, list_elem_of_In.
Qed.

Lemma consistent_update_play db play_id user new_song :
  consistent db -> consistent (update_play db play_id user new_song).
Proof.
  intros Hc. unfold update_play.
  assert (Hsong : forall d, consistent d ->
    consistent match new_song with
               | Some s => if Py.truthy new_song
                           then update_where_id play_id (set_song s) d else d
               | None => d
               end).
  { intros d Hd. destruct new_song as [s|]; [|done].
    destruct (Py.truthy (Some s)); [|done].
    destruct Hd as [Hp Ha]. split; simpl; [|done].
    intros p Hin. apply list_elem_of_In, in_map_iff in Hin as (q & <- & Hq).
    case_decide; simpl; by apply Hp, list_elem_of_In. }
  apply Hsong. destruct user as [u|]; [|done].
  destruct (Py.truthy (Some u)); [|done].
  destruct (consistent_resolve db u Hc) as [Hc' Hin].
  destruct (_resolve_canonical_user db u) as [name db1]. simpl in *.
  by apply consistent_update_where_id.
Qed.

Lemma consistent_set_user_alias db alias canonical_user :
  consistent db -> consistent (set_user_alias db alias canonical_user).
Proof.
  intros [Hp Ha]. split; simpl.
  - intros p Hin. apply elem_of_union_r. by apply Hp.
  - intros a c Hl. apply lookup_insert_Some in Hl as [[_ <-]|[_ Hl]].
    + set_solver.
    + apply elem_of_union_r. by eapply Ha.
Qed.

Lemma consistent_remove_user_alias db alias :
  consistent db -> consistent (remove_user_alias db alias).
Proof.
  intros [Hp Ha]. split; simpl; [done|].
  intros a c Hl. apply lookup_delete_Some in Hl as [_ Hl]. by eapply Ha.
Qed.

Lemma consistent_build_filter_clause db user_filter date_filter :
  consistent db ->
  consistent (snd (_build_filter_clause db user_filter date_filter)).
Proof.
  intros Hc.
  destruct (truthy_false_or_some user_filter) as [Hf|(u & -> & Hu)].
  - by rewrite build_filter_clause_unfiltered.
  - rewrite build_filter_clause_filtered by done. by apply consistent_resolve.
Qed.

Lemma consistent_get_plays_by_user db user date_filter :
  consistent db -> consistent (snd (get_plays_by_user db user date_filter)).
Proof.
  intros Hc. unfold get_plays_by_user.
  assert (Hb : forall d o, consistent d ->
    consistent (snd (let '(w, d') := _build_filter_clause d o date_filter in
      (map (fun p => (id p, timestamp p, canonical_name p, song p, completed p))
           (merge_sort timestamp_desc (filter (satisfies w) (plays d'))), d')))).
  { intros d o Hd. pose proof (consistent_build_filter_clause d o date_filter Hd).
    by destruct (_build_filter_clause d o date_filter). }
  destruct user as [u|]; [|by apply Hb].
  destruct (Py.truthy (Some u)); [|by apply Hb].
  pose proof (consistent_resolve db u Hc) as [Hc' _].
  destruct (_resolve_canonical_user db u) as [c d]. by apply Hb.
Qed.

(** ** Bulk importer: properties *)

Lemma resolve_users_acc names : forall user_map db,
  let r := foldl (fun '(user_map, db) user =>
                    let '(canonical_name, db) := _resolve_canonical_user db user in
                    (<[user := canonical_name]> user_map, db))
                 (user_map, db) names in
  user_aliases (snd r) = user_aliases db
  /\ plays (snd r) = plays db
  /\ plays_seq (snd r) = plays_seq db
  /\ fst r = user_map_of (user_aliases db) user_map names
  /\ (consistent db ->
      (forall u c, user_map !! u = Some c -> c ∈ users db) ->
      consistent (snd r)
      /\ forall u c, fst r !! u = Some c -> c ∈ users (snd r)).
Proof.
  induction names as [|u names IH]; intros user_map db; simpl.
  - do 4 (split; [done|]). intros Hcons Hmap. by split.
  - pose proof (resolve_user_aliases db u) as Ha.
    pose proof (resolve_plays db u) as Hp.
    pose proof (resolve_plays_seq db u) as Hs.
    pose proof (resolve_users_grow db u) as Hg.
    pose proof (consistent_resolve db u) as Hc.
    assert (Hfst : fst (_resolve_canonical_user db u)
                   = default u (user_aliases db !! u)).
    { unfold _resolve_canonical_user. by destruct (user_aliases db !! u). }
    destruct (_resolve_canonical_user db u) as [c db1]. simpl in *.
    specialize (IH (<[u := c]> user_map) db1). simpl in IH.
    destruct IH as (IHa & IHp & IHs & IHm & IHc).
    split; [by rewrite IHa|]. split; [by rewrite IHp|].
    split; [by rewrite IHs|]. split; [by rewrite IHm, Ha, Hfst|].
    intros Hcons Hmap. destruct (Hc Hcons) as [Hc1 Hin].
    apply IHc; [done|].
    intros u' c' Hl. apply lookup_insert_Some in Hl as [[_ <-]|[_ Hl]];
      [done|apply Hg; by eapply Hmap].
Qed.

Lemma import_entry_inr user_map entry db db' :
  import_entry user_map entry db = inr db' ->
  exists user c tsj titlej ts title,
    entry_user entry = inr user
    /\ user_map !! user = Some c
    /\ entry_item "timestamp" entry = inr tsj
    /\ entry_item "song" entry = inr titlej
    /\ Sqlite.bind tsj = inr ts
    /\ Sqlite.bind titlej = inr title
    /\ ((play_exists ts c title db /\ db' = db)
        \/ (~ play_exists ts c title db
            /\ exists dj d ts' title',
                entry_duration entry = inr dj
                /\ Sqlite.bind dj = inr d
                /\ text_affinity ts = Some ts'
                /\ text_affinity title = Some title'
                /\ db' = insert_play ts' c title' d true db)).
Proof.
  unfold import_entry, try_bind, raise. intros H.
  destruct (entry_user entry) as [|user] eqn:Hu; [done|].
  destruct (user_map !! user) as [c|] eqn:Hm; [|done].
  destruct (entry_item "timestamp" entry) as [|tsj] eqn:Htsj; [done|].
  destruct (entry_item "song" entry) as [|titlej] eqn:Htitlej; [done|].
  destruct (Sqlite.bind tsj) as [|ts] eqn:Hts; [done|].
  destruct (Sqlite.bind titlej) as [|title] eqn:Htitle; [done|].
  exists user, c, tsj, titlej, ts, title. do 6 (split; [done|]).
  case_decide as Hex.
  - left. split; [done|congruence].
  - right. split; [done|].
    destruct (entry_duration entry) as [|dj] eqn:Hdj; [done|].
    destruct (Sqlite.bind dj) as [|d] eqn:Hd; [done|].
    destruct (text_affinity ts) as [ts'|] eqn:Ht1; [|done].
    destruct (text_affinity title) as [title'|] eqn:Ht2; [|done].
    exists dj, d, ts', title'. do 4 (split; [done|]). congruence.
Qed.

Lemma extends_refl db : extends db db.
Proof. exists []. by rewrite app_nil_r. Qed.

Lemma extends_trans db1 db2 db3 :
  extends db1 db2 -> extends db2 db3 -> extends db1 db3.
Proof.
  intros [m1 H1] [m2 H2]. exists (m1 ++ m2)%list.
  by rewrite H2, H1, <- app_assoc.
Qed.

Lemma play_exists_extends ts c title db db' :
  extends db db' -> play_exists ts c title db -> play_exists ts c title db'.
Proof.
  intros [more Hm]. unfold play_exists. rewrite Hm, Exists_app. tauto.
Qed.

Lemma import_entry_extends user_map entry db db' :
  import_entry user_map entry db = inr db' -> extends db db'.
Proof.
  intros H. apply import_entry_inr in H
    as (user & c & tsj & titlej & ts & title & _ & _ & _ & _ & _ & _ & Hcase).
  destruct Hcase as [[_ ->]|[_ (dj & d & ts' & title' & _ & _ & _ & _ & ->)]].
  - apply extends_refl.
  - eexists. reflexivity.
Qed.

(** Once an entry is imported it is skipped from then on. *)
Lemma import_entry_again user_map entry db db' db'' :
  import_entry user_map entry db = inr db' ->
  extends db' db'' ->
  import_entry user_map entry db'' = inr db''.
Proof.
  intros H Hext. apply import_entry_inr in H
    as (user & c & tsj & titlej & ts & title
        & Hu & Hm & Htsj & Htitlej & Hts & Htitle & Hcase).
  assert (Hex : play_exists ts c title db'').
  { apply (play_exists_extends _ _ _ db'); [done|].
    destruct Hcase as [[Hex ->]|[_ (dj & d & ts' & title' & _ & _ & Ht1 & Ht2 & ->)]];
      [done|].
    unfold play_exists. simpl. apply Exists_app. right.
    apply Exists_cons_hd. by simpl. }
  unfold import_entry, try_bind.
  rewrite Hu, Hm, Htsj, Htitlej, Hts, Htitle. by case_decide.
Qed.

Lemma import_entries_extends user_map entries : forall db db',
  import_entries user_map entries db = inr db' -> extends db db'.
Proof.
  induction entries as [|e es IH]; intros db db'; simpl; unfold try_bind.
  - intros [= ->]. apply extends_refl.
  - destruct (import_entry user_map e db) as [|db1] eqn:He; [done|].
    intros H. eapply extends_trans; [by eapply import_entry_extends|by apply IH].
Qed.

Lemma import_entries_all_present user_map entries : forall db db',
  import_entries user_map entries db = inr db' ->
  forall e, e ∈ entries -> import_entry user_map e db' = inr db'.
Proof.
  induction entries as [|e es IH]; intros db db'; simpl; unfold try_bind.
  - intros _ e He. by apply elem_of_nil in He.
  - destruct (import_entry user_map e db) as [|db1] eqn:He; [done|].
    intros H e' Hin. apply elem_of_cons in Hin as [->|Hin].
    + eapply import_entry_again; [exact He|]. by eapply import_entries_extends.
    + by eapply IH.
Qed.




Lemma import_entries_frame user_map entries : forall db db',
  import_entries user_map entries db = inr db' ->
  users db' = users db /\ user_aliases db' = user_aliases db.
Proof.
  induction entries as [|e es IH]; intros db db'; simpl; unfold try_bind.
  - by intros [= ->].
  - destruct (import_entry user_map e db) as [|db1] eqn:He; [done|].
    intros H. apply IH in H as [-> ->].
    apply import_entry_inr in He
      as (user & c & tsj & titlej & ts & title & _ & _ & _ & _ & _ & _ & Hcase).
    by destruct Hcase as [[_ ->]|[_ (dj & d & ts' & title' & _ & _ & _ & _ & ->)]].
Qed.

Lemma resolve_users_eq db names :
  resolve_users db names
  = (user_map_of (user_aliases db) ∅ names,
     set_users (users (snd (resolve_users db names))) db).
Proof.
  unfold resolve_users.
  destruct (resolve_users_acc names ∅ db) as (Ha & Hp & Hs & Hm & _).
  simpl in *.
  destruct (foldl _ _ names) as [m db1]. simpl in *. subst m. f_equal.
  destruct db, db1. simpl in *. by subst.
Qed.

Lemma populate_from_log_eq db lines :
  populate_from_log db (Some lines)
  = match read_entries lines with
    | inl e => Raised e db
    | inr (users_to_resolve, entries_to_insert) =>
        let user_map :=
          user_map_of (user_aliases db) ∅ (elements users_to_resolve) in
        let db1 :=
          set_users
            (users (snd (resolve_users db (elements users_to_resolve)))) db in
        match import_entries user_map entries_to_insert db1 with
        | inl e => Raised e db1
        | inr db2 => Returned db2
        end
    end.
Proof.
  unfold populate_from_log.
  destruct (read_entries lines) as [e|[us es]]; [done|].
  by rewrite resolve_users_eq.
Qed.

Lemma consistent_import_entries user_map entries : forall db db',
  consistent db ->
  (forall u c, user_map !! u = Some c -> c ∈ users db) ->
  import_entries user_map entries db = inr db' ->
  consistent db'.
Proof.
  induction entries as [|e es IH]; intros db db' Hc Hm; simpl; unfold try_bind.
  - by intros [= <-].
  - destruct (import_entry user_map e db) as [|db1] eqn:He; [done|].
    apply import_entry_inr in He
      as (user & c & tsj & titlej & ts & title & _ & Hl & _ & _ & _ & _ & Hcase).
    destruct Hcase as [[_ ->]|[_ (dj & d & ts' & title' & _ & _ & _ & _ & ->)]].
    + by apply IH.
    + apply IH; [|done]. apply consistent_insert_play; [done|]. by eapply Hm.
Qed.

Lemma consistent_populate_from_log db log_file :
  consistent db -> consistent (state_after (populate_from_log db log_file)).
Proof.
  intros Hc. destruct log_file as [lines|]; [|done].
  unfold populate_from_log.
  destruct (read_entries lines) as [e|[us es]]; [done|].
  destruct (resolve_users_acc (elements us) ∅ db) as (_ & _ & _ & _ & Hcons).
  destruct Hcons as [Hc1 Hm]; [done|by intros u c; rewrite lookup_empty|].
  unfold resolve_users.
  destruct (foldl _ _ (elements us)) as [m db1]. simpl in *.
  destruct (import_entries m es db1) as [e|db2] eqn:Hi; simpl; [done|].
  by eapply consistent_import_entries.
Qed.

Lemma reachable_consistent db : reachable db -> consistent db.
Proof.
  induction 1.
  - apply consistent_init_db.
  - by apply consistent_resolve.
  - by apply consistent_add_play.
  - by apply consistent_update_play.
  - by apply consistent_set_user_alias.
  - by apply consistent_remove_user_alias.
  - by apply consistent_populate_from_log.
  - rewrite get_last_plays_eq. by apply consistent_build_filter_clause.
  - rewrite get_plays_count_eq. by apply consistent_build_filter_clause.
  - by apply consistent_get_plays_by_user.
Qed.

(** The order in which the set [users_to_resolve] is walked does not
    matter. *)
Lemma foldl_commute_Permutation {A B} (f : B -> A -> B) (l l' : list A) :
  (forall b x y, f (f b x) y = f (f b y) x) ->
  l ≡ₚ l' -> forall b, foldl f b l = foldl f b l'.
Proof.
  intros Hf. induction 1 as [|x l l' _ IH|x y l|l1 l2 l3 _ IH1 _ IH2];
    intros b; simpl.
  - done.
  - apply IH.
  - by rewrite Hf.
  - by rewrite IH1.
Qed.

Lemma resolve_users_Permutation db names names' :
  names ≡ₚ names' -> resolve_users db names = resolve_users db names'.
Proof.
  intros Hperm. unfold resolve_users.
  apply foldl_commute_Permutation; [|done].
  intros [m d] x y. unfold _resolve_canonical_user.
  destruct (user_aliases d !! x) as [cx|] eqn:Hx,
           (user_aliases d !! y) as [cy|] eqn:Hy;
    simpl; rewrite ?Hx, ?Hy; simpl; f_equal.
  - destruct (decide (x = y)) as [->|]; [congruence|by apply insert_insert_ne].
  - destruct (decide (x = y)) as [->|]; [congruence|by apply insert_insert_ne].
  - destruct (decide (x = y)) as [->|]; [congruence|by apply insert_insert_ne].
  - destruct (decide (x = y)) as [->|]; [done|by apply insert_insert_ne].
  - unfold insert_or_ignore_user, set_users. simpl. f_equal.
    apply set_eq. intros z. rewrite !elem_of_union. tauto.
Qed.

(** A line that decodes to something other than an object raises too:
    [list] has no [get]. *)
Lemma import_raises_on_line_that_is_no_object db :
  populate_from_log db (Some [Some (Py.JArr [])])
  = Raised Py.AttributeError db.
Proof. reflexivity. Qed.

(** A log none of whose lines decode imports nothing and returns. *)
Lemma import_skips_lines_that_do_not_decode db n :
  populate_from_log db (Some (replicate n None)) = Returned db.
Proof.
  unfold populate_from_log.
  assert (Hread : read_entries (replicate n None) = inr (∅, [])).
  { induction n as [|n IH]; [done|exact IH]. }
  rewrite Hread, elements_empty. simpl. by destruct db.
Qed.

(** C1: an entry that decodes but has no "timestamp" is not skipped.  For
    every database, importing a log whose only line is
    [{"user": "alice", "song": "Africa"}] raises [KeyError] for
    "timestamp"; the resolver's insert of the user is all that is kept.  In
    a log where a well-formed line follows such a line the import raises as
    well and no play is inserted, whereas a line that does not decode
    before the same well-formed line is passed over and the play is
    inserted. *)
Theorem import_raises_on_entry_without_timestamp db :
  populate_from_log db (Some [Some entry_without_timestamp])
  = Raised (Py.KeyError "timestamp") (snd (_resolve_canonical_user db "alice"))
  /\ (exists db',
        populate_from_log init_db
          (Some [Some entry_without_timestamp; Some entry_with_timestamp])
        = Raised (Py.KeyError "timestamp") db'
        /\ plays db' = [])
  /\ (exists db',
        populate_from_log init_db (Some [None; Some entry_with_timestamp])
        = Returned db'
        /\ plays db'
           = [Play 1 "2024-05-06 02:00:00" "bob" "Jolene" (Sqlite.SInt 0) true]).
Proof.
  split; [|split].
  - unfold populate_from_log.
    change (read_entries [Some entry_without_timestamp])
      with (@inr Py.exn _ (({["alice"]} ∪ ∅ : gset string),
                           [entry_without_timestamp])).
    cbv iota beta. rewrite union_empty_r_L, elements_singleton.
    unfold resolve_users. cbn [foldl].
    destruct (_resolve_canonical_user db "alice") as [c db1]. cbn [snd].
    cbn [import_entries]. unfold import_entry, try_bind.
    change (entry_user entry_without_timestamp) with (@inr Py.exn _ "alice").
    cbv iota beta. by rewrite lookup_insert_eq.
  - eexists. split; [vm_compute; reflexivity|reflexivity].
  - eexists. split; [vm_compute; reflexivity|reflexivity].
Qed.

(** ** Query engine: pagination *)




Lemma joined_rows_consistent db :
  consistent db ->
  filter (fun p => canonical_name p ∈ users db /\ completed p = true) (plays db)
  = filter (fun p => completed p = true) (plays db).
Proof.
  intros [Hp _]. induction (plays db) as [|p ps IH]; [done|].
  rewrite !filter_cons.
  assert (canonical_name p ∈ users db) by (apply Hp; left).
  rewrite IH by (intros q Hq; apply Hp; by right).
  repeat case_decide; try done; tauto.
Qed.



(** ** Order of text *)

Lemma String_leb_trans a b c :
  String.leb a b = true -> String.leb b c = true -> String.leb a c = true.
Proof.
  unfold String.leb. revert b c.
  induction a as [|x a IH]; intros [|y b] [|z c]; cbn [String.compare];
    try done.
  unfold Ascii.compare.
  destruct (N.compare_spec (N_of_ascii x) (N_of_ascii y)),
           (N.compare_spec (N_of_ascii y) (N_of_ascii z)),
           (N.compare_spec (N_of_ascii x) (N_of_ascii z));
    try done; try lia.
  apply IH.
Qed.

Lemma String_ltb_not_leb a b :
  String.ltb a b = true -> String.leb b a = false.
Proof.
  unfold String.ltb, String.leb. rewrite (String.compare_antisym b a).
  by destruct (String.compare a b).
Qed.

#[global] Instance text_asc_total : Total text_asc.
Proof.
  intros a b. unfold text_asc.
  destruct (String.leb_total a b) as [->| ->]; simpl; tauto.
Qed.

#[global] Instance text_asc_trans : Transitive text_asc.
Proof.
  intros a b c Hab Hbc. unfold text_asc in *.
  apply Is_true_true. eapply String_leb_trans; by apply Is_true_true.
Qed.

#[global] Instance timestamp_desc_total : Total timestamp_desc.
Proof.
  intros p q. unfold timestamp_desc.
  destruct (String.leb_total (timestamp p) (timestamp q)) as [->| ->];
    simpl; tauto.
Qed.

#[global] Instance timestamp_desc_trans : Transitive timestamp_desc.
Proof.
  intros p q r Hpq Hqr. unfold timestamp_desc in *.
  apply Is_true_true. eapply String_leb_trans; by apply Is_true_true.
Qed.

#[global] Instance date_desc_total : Total date_desc.
Proof.
  intros [a|] [b|]; simpl; try tauto.
  destruct (String.leb_total a b) as [->| ->]; simpl; tauto.
Qed.

#[global] Instance date_desc_trans : Transitive date_desc.
Proof.
  intros [a|] [b|] [c|]; simpl; try done.
  intros Hab Hbc. apply Is_true_true.
  eapply String_leb_trans; by apply Is_true_true.
Qed.

Lemma merge_sort_strongly_sorted {A} (R : relation A)
  `{!forall x y, Decision (R x y)} `{!Total R} `{!Transitive R} (l : list A) :
  StronglySorted R (merge_sort R l).
Proof. apply StronglySorted_merge_sort; apply _. Qed.

Lemma merge_sort_NoDup {A} (R : relation A)
  `{!forall x y, Decision (R x y)} (l : list A) :
  NoDup l -> NoDup (merge_sort R l).
Proof. intros Hnd. by rewrite merge_sort_Permutation. Qed.

Lemma merge_sort_elem {A} (R : relation A)
  `{!forall x y, Decision (R x y)} (l : list A) x :
  x ∈ merge_sort R l <-> x ∈ l.
Proof. by rewrite merge_sort_Permutation. Qed.

(** ** Distinct values: properties *)

(** X1: [get_distinct_users] lists exactly the names that have a row in
    [users] or are an alias, each once, in ascending order. *)
Theorem distinct_users_are_users_and_aliases db :
  StronglySorted text_asc (get_distinct_users db)
  /\ NoDup (get_distinct_users db)
  /\ forall name,
       name ∈ get_distinct_users db
       <-> name ∈ users db \/ is_Some (user_aliases db !! name).
Proof.
  unfold get_distinct_users.
  split; [apply merge_sort_strongly_sorted; apply _|].
  split; [apply merge_sort_NoDup, NoDup_elements|].
  intros name. rewrite merge_sort_elem, elem_of_elements, elem_of_union.
  by rewrite elem_of_dom.
Qed.

(** X2: [get_distinct_songs] lists exactly the songs some play has, each
    once, in ascending order; every song that [get_top_songs] reports is
    among them. *)
Theorem distinct_songs_are_the_songs_played db :
  StronglySorted text_asc (get_distinct_songs db)
  /\ NoDup (get_distinct_songs db)
  /\ (forall title,
        title ∈ get_distinct_songs db
        <-> exists p, p ∈ plays db /\ song p = title)
  /\ forall limit title n,
       (title, n) ∈ get_top_songs db limit -> title ∈ get_distinct_songs db.
Proof.
  unfold get_distinct_songs, _get_distinct_values.
  assert (Hel : forall title,
    title ∈ merge_sort text_asc (remove_dups (map song (plays db)))
    <-> exists p, p ∈ plays db /\ song p = title).
  { intros title. rewrite merge_sort_elem, elem_of_remove_dups.
    rewrite list_elem_of_In, in_map_iff.
    split; intros (p & H1 & H2); exists p.
    - split; [by apply list_elem_of_In|done].
    - split; [done|by apply list_elem_of_In]. }
  split; [apply merge_sort_strongly_sorted; apply _|].
  split; [apply merge_sort_NoDup, NoDup_remove_dups|].
  split; [exact Hel|].
  intros limit title n Hin. apply Hel.
  unfold get_top_songs, Sqlite.limit_offset in Hin. simpl in Hin.
  assert ((title, n) ∈ group_count song
            (filter (fun p => completed p = true) (plays db))) as Hg.
  { rewrite drop_0 in Hin. rewrite <- merge_sort_elem.
    destruct (limit <? 0); [exact Hin|].
    by eapply subseteq_take. }
  apply group_count_elem in Hg as [-> Hpos].
  destruct (filter (fun r => song r = title) _) as [|p ps] eqn:Hf;
    [simpl in Hpos; lia|].
  assert (p ∈ p :: ps) as Hp by left. rewrite <- Hf in Hp.
  apply list_elem_of_filter in Hp as [Hs Hp].
  apply list_elem_of_filter in Hp as [_ Hp]. eauto.
Qed.

(** X3: [get_distinct_dates] lists the values of [date(timestamp)] over
    the plays, each once, latest first and NULL last; a date is listed
    exactly when [get_plays_count] filtered by it is positive. *)
Theorem distinct_dates_are_the_dates_with_plays db :
  StronglySorted date_desc (get_distinct_dates db)
  /\ NoDup (get_distinct_dates db)
  /\ (forall d,
        d ∈ get_distinct_dates db
        <-> exists p, p ∈ plays db /\ strftime "%Y-%m-%d" (timestamp p) = d)
  /\ forall day, day <> "" ->
       (Some day ∈ get_distinct_dates db
        <-> (0 < fst (get_plays_count db (Some day) None))%nat).
Proof.
  unfold get_distinct_dates.
  assert (Hel : forall d,
    d ∈ merge_sort date_desc
          (remove_dups
             (map (fun p => strftime "%Y-%m-%d" (timestamp p)) (plays db)))
    <-> exists p, p ∈ plays db /\ strftime "%Y-%m-%d" (timestamp p) = d).
  { intros d. rewrite merge_sort_elem, elem_of_remove_dups.
    rewrite list_elem_of_In, in_map_iff.
    split; intros (p & H1 & H2); exists p.
    - split; [by apply list_elem_of_In|done].
    - split; [done|by apply list_elem_of_In]. }
  split; [apply merge_sort_strongly_sorted; apply _|].
  split; [apply merge_sort_NoDup, NoDup_remove_dups|].
  split; [exact Hel|].
  intros day Hday. rewrite Hel, get_plays_count_eq.
  rewrite build_filter_clause_unfiltered by done. simpl.
  destruct (String.eqb_spec day ""); [done|]. simpl.
  split.
  - intros (p & Hp & Hd).
    assert (p ∈ filter (satisfies (Where None (Some day))) (plays db)) as Hin.
    { apply list_elem_of_filter. split; [|done].
      split; simpl; [done|]. by rewrite Hd. }
    destruct (filter _ _); [by apply elem_of_nil in Hin|simpl; lia].
  - intros Hpos.
    destruct (filter (satisfies (Where None (Some day))) (plays db))
      as [|p ps] eqn:Hf; [simpl in Hpos; lia|].
    assert (p ∈ p :: ps) as Hp by left. rewrite <- Hf in Hp.
    apply list_elem_of_filter in Hp as [[_ Hs] Hp]. simpl in Hs.
    exists p. split; [done|].
    destruct (strftime "%Y-%m-%d" (timestamp p)); simpl in Hs; [by subst|done].
Qed.


(** ** What a call leaves in place *)

Lemma only_adds_refl db : only_adds db db.
Proof. split; [done|]. split; [done|apply extends_refl]. Qed.

Lemma only_adds_trans db1 db2 db3 :
  only_adds db1 db2 -> only_adds db2 db3 -> only_adds db1 db3.
Proof.
  intros (Hu1 & Ha1 & He1) (Hu2 & Ha2 & He2). split; [set_solver|].
  split; [congruence|by eapply extends_trans].
Qed.

Lemma only_adds_same_plays db db' :
  users db ⊆ users db' -> user_aliases db' = user_aliases db ->
  plays db' = plays db -> only_adds db db'.
Proof.
  intros Hu Ha Hp. split; [done|]. split; [done|].
  exists []. by rewrite Hp, app_nil_r.
Qed.

Lemma only_adds_resolve db user :
  only_adds db (snd (_resolve_canonical_user db user)).
Proof.
  apply only_adds_same_plays;
    [apply resolve_users_grow|apply resolve_user_aliases|apply resolve_plays].
Qed.

Lemma only_adds_add_play db title user d c now :
  only_adds db (add_play db title user d c now).
Proof.
  unfold add_play. pose proof (only_adds_resolve db user) as Hr.
  destruct (_resolve_canonical_user db user) as [name db1]. simpl in Hr.
  eapply only_adds_trans; [exact Hr|].
  split; [done|]. split; [done|]. eexists. reflexivity.
Qed.

Lemma only_adds_build_filter_clause db by_user by_date :
  only_adds db (snd (_build_filter_clause db by_user by_date)).
Proof.
  destruct (truthy_false_or_some by_user) as [Hf|(u & -> & Hu)].
  - rewrite build_filter_clause_unfiltered by done. apply only_adds_refl.
  - rewrite build_filter_clause_filtered by done. apply only_adds_resolve.
Qed.

Lemma get_plays_by_user_state db user by_date :
  exists by_user db1,
    only_adds db db1
    /\ plays db1 = plays db
    /\ plays_seq db1 = plays_seq db
    /\ snd (get_plays_by_user db user by_date)
       = snd (_build_filter_clause db1 by_user by_date).
Proof.
  unfold get_plays_by_user.
  assert (Hb : forall d o,
    snd (let '(w, d') := _build_filter_clause d o by_date in
      (map (fun p => (id p, timestamp p, canonical_name p, song p, completed p))
           (merge_sort timestamp_desc (filter (satisfies w) (plays d'))), d'))
    = snd (_build_filter_clause d o by_date)).
  { intros d o. by destruct (_build_filter_clause d o by_date). }
  destruct user as [u|].
  - destruct (Py.truthy (Some u)).
    + pose proof (only_adds_resolve db u) as Hr.
      pose proof (resolve_plays db u) as Hp.
      pose proof (resolve_plays_seq db u) as Hs.
      destruct (_resolve_canonical_user db u) as [c d]. simpl in *.
      exists (Some c), d. by rewrite Hb.
    + exists None, db. by rewrite Hb; repeat split; try apply only_adds_refl.
  - exists None, db. by rewrite Hb; repeat split; try apply only_adds_refl.
Qed.

Lemma only_adds_get_plays_by_user db user by_date :
  only_adds db (snd (get_plays_by_user db user by_date)).
Proof.
  destruct (get_plays_by_user_state db user by_date) as (o & d & Hd & _ & _ & ->).
  eapply only_adds_trans; [exact Hd|apply only_adds_build_filter_clause].
Qed.

Lemma resolve_users_users_grow names :
  forall (user_map : gmap string string) db,
  users db ⊆ users (snd (foldl (fun '(user_map, db) user =>
                    let '(canonical_name, db) := _resolve_canonical_user db user in
                    (<[user := canonical_name]> user_map, db))
                 (user_map, db) names)).
Proof.
  induction names as [|u names IH]; intros user_map db; simpl; [done|].
  pose proof (resolve_users_grow db u) as Hg.
  destruct (_resolve_canonical_user db u) as [c db1]. simpl in Hg.
  etrans; [exact Hg|apply IH].
Qed.

Lemma only_adds_populate_from_log db log_file :
  only_adds db (state_after (populate_from_log db log_file)).
Proof.
  destruct log_file as [lines|]; [|apply only_adds_refl].
  unfold populate_from_log.
  destruct (read_entries lines) as [e|[us es]]; [apply only_adds_refl|].
  destruct (resolve_users_acc (elements us) ∅ db) as (Ha & Hp & _ & _ & _).
  pose proof (resolve_users_users_grow (elements us) ∅ db) as Hu.
  unfold resolve_users.
  destruct (foldl _ _ (elements us)) as [m db1]. simpl in *.
  assert (only_adds db db1) as H1 by by apply only_adds_same_plays.
  destruct (import_entries m es db1) as [e|db2] eqn:Hi; simpl; [done|].
  eapply only_adds_trans; [exact H1|].
  destruct (import_entries_frame _ _ _ _ Hi) as [Hu2 Ha2].
  split; [by rewrite Hu2|]. split; [done|by eapply import_entries_extends].
Qed.

Lemma build_filter_clause_again db by_user by_date :
  snd (_build_filter_clause
         (snd (_build_filter_clause db by_user by_date)) by_user by_date)
  = snd (_build_filter_clause db by_user by_date).
Proof.
  destruct (truthy_false_or_some by_user) as [Hf|(u & -> & Hu)].
  - by rewrite !build_filter_clause_unfiltered.
  - rewrite !build_filter_clause_filtered by done. simpl.
    unfold _resolve_canonical_user.
    destruct (user_aliases db !! u) as [c|] eqn:Hc; simpl; rewrite Hc; [done|].
    simpl. apply insert_or_ignore_user_present. simpl. set_solver.
Qed.

(** The page leaves what its performer filter leaves, also when it
    flashes an error. *)
Lemma history_state db a :
  snd (history db a)
  = snd (_build_filter_clause db (user_filter a) (date_filter a)).
Proof.
  unfold history. rewrite get_last_plays_eq.
  destruct (page_bind _ _); [done|].
  rewrite get_plays_count_eq, build_filter_clause_again.
  by destruct (page_bind _ _).
Qed.

Lemma update_play_tables db play_id user new_song :
  users db ⊆ users (update_play db play_id user new_song)
  /\ user_aliases (update_play db play_id user new_song) = user_aliases db
  /\ plays_seq (update_play db play_id user new_song) = plays_seq db.
Proof.
  unfold update_play.
  assert (Hsong : forall d,
    let d' := match new_song with
              | Some s => if Py.truthy new_song
                          then update_where_id play_id (set_song s) d else d
              | None => d
              end in
    users d' = users d /\ user_aliases d' = user_aliases d
    /\ plays_seq d' = plays_seq d).
  { intros d. destruct new_song as [s|]; [|done].
    by destruct (Py.truthy (Some s)). }
  destruct user as [u|].
  - destruct (Py.truthy (Some u)).
    + pose proof (resolve_users_grow db u) as Hg.
      pose proof (resolve_user_aliases db u) as Ha.
      pose proof (resolve_plays_seq db u) as Hs.
      destruct (_resolve_canonical_user db u) as [c d]. simpl in *.
      destruct (Hsong (update_where_id play_id (set_canonical_name c) d))
        as (-> & -> & ->). by simpl.
    + destruct (Hsong db) as (-> & -> & ->). done.
  - destruct (Hsong db) as (-> & -> & ->). done.
Qed.

Lemma only_adds_run c db :
  match c with
  | Call_update_play _ _ _ | Call_set_user_alias _ _
  | Call_remove_user_alias _ => True
  | _ => only_adds db (run c db)
  end.
Proof.
  destruct c; simpl; try done.
  - apply only_adds_resolve.
  - apply only_adds_add_play.
  - apply only_adds_populate_from_log.
  - rewrite get_last_plays_eq. apply only_adds_build_filter_clause.
  - rewrite get_plays_count_eq. apply only_adds_build_filter_clause.
  - apply only_adds_get_plays_by_user.
  - rewrite history_state. apply only_adds_build_filter_clause.
Qed.

(** X4: no call deletes anything.  Every row of [users] stays; every play
    stays at its place with its id, time stamp, duration and completion
    flag; and unless the call is [update_play] the play is unchanged
    altogether. *)
Theorem no_call_deletes_or_rewrites_history c db :
  users db ⊆ users (run c db)
  /\ (length (plays db) <= length (plays (run c db)))%nat
  /\ forall i p, plays db !! i = Some p ->
       exists p', plays (run c db) !! i = Some p'
         /\ id p' = id p
         /\ timestamp p' = timestamp p
         /\ duration p' = duration p
         /\ completed p' = completed p
         /\ ((forall play_id user new_song,
                c <> Call_update_play play_id user new_song) -> p' = p).
Proof.
  assert (Hadd : users db ⊆ users (run c db) -> extends db (run c db) ->
    users db ⊆ users (run c db)
    /\ (length (plays db) <= length (plays (run c db)))%nat
    /\ forall i p, plays db !! i = Some p ->
         exists p', plays (run c db) !! i = Some p'
           /\ id p' = id p /\ timestamp p' = timestamp p
           /\ duration p' = duration p /\ completed p' = completed p
           /\ ((forall play_id user new_song,
                  c <> Call_update_play play_id user new_song) -> p' = p)).
  { intros Hu [more Hm]. split; [done|].
    rewrite Hm, length_app. split; [lia|].
    intros i p Hi. exists p. split; [by apply lookup_app_l_Some|done]. }
  pose proof (only_adds_run c db) as Hrun.
  destruct c; try (destruct Hrun as (Hu & _ & He); by apply Hadd).
  - simpl.
    destruct (update_play_pointwise db play_id user new_song) as (g & Hg & Hp).
    destruct (update_play_tables db play_id user new_song) as (Hu & _ & _).
    split; [done|]. rewrite Hg, length_map. split; [done|].
    intros i p Hi. exists (g p). split.
    { change (map g (plays db)) with (g <$> plays db).
      by rewrite list_lookup_fmap, Hi. }
    destruct (Hp p) as (H1 & H2 & H3 & H4 & _).
    do 4 (split; [done|]). intros Hne. by destruct (Hne play_id user new_song).
  - apply Hadd; simpl; [apply union_subseteq_r|].
    exists []. simpl. by rewrite app_nil_r.
  - apply Hadd; simpl; [done|].
    exists []. simpl. by rewrite app_nil_r.
Qed.


Lemma resolve_same_aliases db1 db2 name :
  user_aliases db1 = user_aliases db2 ->
  fst (_resolve_canonical_user db1 name) = fst (_resolve_canonical_user db2 name).
Proof.
  intros Ha. unfold _resolve_canonical_user. rewrite Ha.
  by destruct (user_aliases db2 !! name).
Qed.

(** X5: how a name resolves depends on the alias table alone, and only
    [set_user_alias] and [remove_user_alias] write to it: after any other
    call every name resolves as before.  The two alias calls change the
    resolution of their own alias only. *)
Theorem only_alias_calls_change_resolution c db :
  (match c with
   | Call_set_user_alias _ _ | Call_remove_user_alias _ => True
   | _ =>
       user_aliases (run c db) = user_aliases db
       /\ forall name,
            fst (_resolve_canonical_user (run c db) name)
            = fst (_resolve_canonical_user db name)
   end)
  /\ forall alias name,
       name <> alias ->
       (forall canonical_user,
          fst (_resolve_canonical_user
                 (set_user_alias db alias canonical_user) name)
          = fst (_resolve_canonical_user db name))
       /\ fst (_resolve_canonical_user (remove_user_alias db alias) name)
          = fst (_resolve_canonical_user db name).
Proof.
  split.
  - assert (Hres : user_aliases (run c db) = user_aliases db ->
      user_aliases (run c db) = user_aliases db
      /\ forall name,
           fst (_resolve_canonical_user (run c db) name)
           = fst (_resolve_canonical_user db name)).
    { intros Ha. split; [done|]. intros name. by apply resolve_same_aliases. }
    pose proof (only_adds_run c db) as Hrun.
    destruct c; try done; try (apply Hres, Hrun).
    apply Hres. simpl. apply update_play_tables.
  - intros alias name Hne. split.
    + intros canonical_user. unfold _resolve_canonical_user, set_user_alias.
      simpl. rewrite lookup_insert_ne by done.
      by destruct (user_aliases db !! name).
    + unfold _resolve_canonical_user, remove_user_alias. simpl.
      rewrite lookup_delete_ne by done.
      by destruct (user_aliases db !! name).
Qed.

(** ** Ids of reachable databases *)

Lemma ids_ok_same_ledger db db' :
  plays db' = plays db -> plays_seq db' = plays_seq db ->
  ids_ok db -> ids_ok db'.
Proof. unfold ids_ok. by intros -> ->. Qed.

Lemma ids_ok_insert_play db ts name title d c :
  ids_ok db -> ids_ok (insert_play ts name title d c db).
Proof.
  intros (Hnd & Hs & Hb). split; [|split]; simpl.
  - rewrite map_app. simpl. apply NoDup_app. split; [done|].
    split; [|apply NoDup_singleton].
    intros x Hx Hx'. apply list_elem_of_singleton in Hx'. subst x.
    apply list_elem_of_In, in_map_iff in Hx as (p & Hid & Hp).
    apply list_elem_of_In, Hb in Hp. lia.
  - lia.
  - intros p Hp. apply elem_of_app in Hp as [Hp|Hp].
    + apply Hb in Hp. lia.
    + apply list_elem_of_singleton in Hp. subst p. simpl. lia.
Qed.

Lemma ids_ok_resolve db user :
  ids_ok db -> ids_ok (snd (_resolve_canonical_user db user)).
Proof.
  apply ids_ok_same_ledger; [apply resolve_plays|apply resolve_plays_seq].
Qed.

Lemma build_filter_clause_plays_seq db by_user by_date :
  plays_seq (snd (_build_filter_clause db by_user by_date)) = plays_seq db.
Proof.
  destruct (truthy_false_or_some by_user) as [Hf|(u & -> & Hu)].
  - by rewrite build_filter_clause_unfiltered.
  - rewrite build_filter_clause_filtered by done. apply resolve_plays_seq.
Qed.

Lemma ids_ok_build_filter_clause db by_user by_date :
  ids_ok db -> ids_ok (snd (_build_filter_clause db by_user by_date)).
Proof.
  apply ids_ok_same_ledger;
    [apply build_filter_clause_plays|apply build_filter_clause_plays_seq].
Qed.

Lemma ids_ok_update_play db play_id user new_song :
  ids_ok db -> ids_ok (update_play db play_id user new_song).
Proof.
  intros (Hnd & Hs & Hb).
  destruct (update_play_pointwise db play_id user new_song) as (g & Hg & Hp).
  destruct (update_play_tables db play_id user new_song) as (_ & _ & Hseq).
  assert (Hid : map id (plays (update_play db play_id user new_song))
                = map id (plays db)).
  { rewrite Hg, map_map. apply map_ext. intros p. apply Hp. }
  split; [by rewrite Hid|]. split; [by rewrite Hseq|].
  intros p Hin. rewrite Hg in Hin.
  apply list_elem_of_In, in_map_iff in Hin as (q & <- & Hq).
  destruct (Hp q) as (-> & _). rewrite Hseq. by apply Hb, list_elem_of_In.
Qed.

Lemma ids_ok_import_entries user_map entries : forall db db',
  ids_ok db -> import_entries user_map entries db = inr db' -> ids_ok db'.
Proof.
  induction entries as [|e es IH]; intros db db' Hok; simpl; unfold try_bind.
  - by intros [= <-].
  - destruct (import_entry user_map e db) as [|db1] eqn:He; [done|].
    apply import_entry_inr in He
      as (user & c & tsj & titlej & ts & title & _ & _ & _ & _ & _ & _ & Hcase).
    destruct Hcase as [[_ ->]|[_ (dj & d & ts' & title' & _ & _ & _ & _ & ->)]].
    + by apply IH.
    + apply IH. by apply ids_ok_insert_play.
Qed.

Lemma ids_ok_populate_from_log db log_file :
  ids_ok db -> ids_ok (state_after (populate_from_log db log_file)).
Proof.
  intros Hok. destruct log_file as [lines|]; [|done].
  unfold populate_from_log.
  destruct (read_entries lines) as [e|[us es]]; [done|].
  destruct (resolve_users_acc (elements us) ∅ db) as (_ & Hp & Hs & _ & _).
  unfold resolve_users.
  destruct (foldl _ _ (elements us)) as [m db1]. simpl in *.
  assert (ids_ok db1) as Hok1 by by eapply ids_ok_same_ledger.
  destruct (import_entries m es db1) as [e|db2] eqn:Hi; simpl; [done|].
  by eapply ids_ok_import_entries.
Qed.

Lemma reachable_ids_ok db : reachable db -> ids_ok db.
Proof.
  induction 1.
  - split; [constructor|]. split; [done|].
    intros p Hp. by apply elem_of_nil in Hp.
  - by apply ids_ok_resolve.
  - unfold add_play. pose proof (ids_ok_resolve db user IHreachable) as Hr.
    destruct (_resolve_canonical_user db user). by apply ids_ok_insert_play.
  - by apply ids_ok_update_play.
  - done.
  - done.
  - by apply ids_ok_populate_from_log.
  - rewrite get_last_plays_eq. by apply ids_ok_build_filter_clause.
  - rewrite get_plays_count_eq. by apply ids_ok_build_filter_clause.
  - match goal with
    | |- ids_ok (snd (get_plays_by_user ?d0 ?u ?f)) =>
        destruct (get_plays_by_user_state d0 u f) as (o & d & _ & Hp & Hs & ->)
    end.
    apply ids_ok_build_filter_clause. by eapply ids_ok_same_ledger.
Qed.

Lemma reachable_run c db : reachable db -> reachable (run c db).
Proof.
  intros Hr. destruct c; simpl; try by constructor.
  rewrite history_state.
  replace (snd (_build_filter_clause db (user_filter a) (date_filter a)))
    with (snd (get_plays_count db (date_filter a) (user_filter a)))
    by (by rewrite get_plays_count_eq).
  by constructor.
Qed.

(** X6: in every database the operations reach, the ids of the plays are
    distinct, positive and at most the AUTOINCREMENT counter, and so
    [update_play] changes at most one row. *)
Theorem play_ids_are_unique db :
  reachable db ->
  NoDup (map id (plays db))
  /\ (forall p, p ∈ plays db -> 0 < id p <= plays_seq db)
  /\ forall play_id user new_song i j p q,
       plays db !! i = Some p -> plays db !! j = Some q ->
       plays (update_play db play_id user new_song) !! i <> Some p ->
       plays (update_play db play_id user new_song) !! j <> Some q ->
       i = j.
Proof.
  intros Hr. destruct (reachable_ids_ok db Hr) as (Hnd & _ & Hb).
  split; [done|]. split; [done|].
  intros play_id user new_song i j p q Hi Hj Hci Hcj.
  destruct (update_play_pointwise db play_id user new_song) as (g & Hg & Hp).
  rewrite Hg in Hci, Hcj.
  change (map g (plays db)) with (g <$> plays db) in Hci, Hcj.
  rewrite list_lookup_fmap in Hci, Hcj. rewrite Hi in Hci. rewrite Hj in Hcj.
  simpl in Hci, Hcj.
  assert (Some (id p) = play_id) as Hpid.
  { destruct (decide (Some (id p) = play_id)) as [|Hne]; [done|].
    destruct (Hp p) as (_ & _ & _ & _ & Hsame & _).
    destruct Hci. f_equal. by apply Hsame. }
  assert (Some (id q) = play_id) as Hqid.
  { destruct (decide (Some (id q) = play_id)) as [|Hne]; [done|].
    destruct (Hp q) as (_ & _ & _ & _ & Hsame & _).
    destruct Hcj. f_equal. by apply Hsame. }
  eapply NoDup_lookup; [exact Hnd| |].
  - change (map id (plays db)) with (id <$> plays db).
    by rewrite list_lookup_fmap, Hi.
  - change (map id (plays db)) with (id <$> plays db).
    rewrite list_lookup_fmap, Hj. simpl. congruence.
Qed.

(** X7: in every database the operations reach, every play's performer
    and every alias's target has a row in [users]; so the list
    [get_distinct_users] offers has every performer with a play and both
    ends of every pair [get_user_aliases] returns. *)
Theorem reachable_names_are_registered db :
  reachable db ->
  (forall p, p ∈ plays db ->
     canonical_name p ∈ users db
     /\ canonical_name p ∈ get_distinct_users db)
  /\ forall alias canonical,
       (alias, canonical) ∈ get_user_aliases db ->
       canonical ∈ users db
       /\ alias ∈ get_distinct_users db
       /\ canonical ∈ get_distinct_users db.
Proof.
  intros Hr. destruct (reachable_consistent db Hr) as [Hp Ha].
  assert (Hin : forall name,
    name ∈ users db \/ is_Some (user_aliases db !! name) ->
    name ∈ get_distinct_users db).
  { intros name H. unfold get_distinct_users.
    rewrite merge_sort_elem, elem_of_elements, elem_of_union.
    by rewrite elem_of_dom. }
  split.
  - intros p Hin'. split; [by apply Hp|]. apply Hin. left. by apply Hp.
  - intros alias canonical Hpair. unfold get_user_aliases in Hpair.
    apply elem_of_map_to_list in Hpair.
    split; [by eapply Ha|]. split; apply Hin; [right; eauto|left; by eapply Ha].
Qed.


(** ** Counts add up *)

Lemma list_sum_Permutation (l l' : list nat) :
  l ≡ₚ l' -> list_sum l = list_sum l'.
Proof. induction 1; simpl; lia. Qed.


Lemma list_sum_drop (n : nat) (l : list nat) :
  (list_sum (drop n l) <= list_sum l)%nat.
Proof.
  revert n. induction l as [|x l IH]; intros [|n]; simpl; try lia.
  specialize (IH n). lia.
Qed.

Lemma filter_key_in_cons {A} (key : A -> string) k ks (rows : list A) :
  k ∉ ks ->
  length (filter (fun r => key r ∈ k :: ks) rows)
  = (length (filter (fun r => key r = k) rows)
     + length (filter (fun r => key r ∈ ks) rows))%nat.
Proof.
  intros Hk. induction rows as [|r rows IH]; [done|].
  rewrite !filter_cons.
  destruct (decide (key r = k)) as [Heq|Hne].
  - rewrite decide_True by (rewrite Heq; left).
    rewrite (decide_False (P := key r ∈ ks)) by (by rewrite Heq).
    simpl. by rewrite IH.
  - destruct (decide (key r ∈ ks)) as [Hin|Hnin].
    + rewrite decide_True by (by right). simpl. rewrite IH. lia.
    + rewrite decide_False; [done|].
      intros Hc. apply elem_of_cons in Hc as [?|?]; done.
Qed.

Lemma filter_all {A} (P : A -> Prop) `{!forall x, Decision (P x)}
  (l : list A) :
  (forall x, x ∈ l -> P x) -> filter P l = l.
Proof.
  induction l as [|x l IH]; intros Hall; [done|].
  rewrite filter_cons, decide_True by (apply Hall; left).
  f_equal. apply IH. intros y Hy. apply Hall. by right.
Qed.

Lemma group_count_sum {A} (key : A -> string) (rows : list A) :
  list_sum (map snd (group_count key rows)) = length rows.
Proof.
  unfold group_count. rewrite map_map. simpl.
  assert (Hgen : forall ks, NoDup ks ->
    list_sum (map (fun k => length (filter (fun r => key r = k) rows)) ks)
    = length (filter (fun r => key r ∈ ks) rows)).
  { induction 1 as [|k ks Hk Hnd IH]; simpl.
    - induction rows as [|r rows IHr]; [done|].
      rewrite filter_cons, decide_False; [done|apply not_elem_of_nil].
    - by rewrite IH, filter_key_in_cons. }
  rewrite Hgen by apply NoDup_remove_dups. f_equal.
  apply filter_all. intros r Hr. apply elem_of_remove_dups.
  apply list_elem_of_In, in_map, list_elem_of_In, Hr.
Qed.


(** X9: in every database the operations reach, the unpaginated
    [get_top_users] gives each listed performer the number of their
    completed plays, and these counts add up to the number of completed
    plays: the JOIN with [users] loses none. *)
Theorem top_users_counts_add_up db sort_by sort_order :
  reachable db ->
  let rows := filter (fun p => completed p = true) (plays db) in
  list_sum (map snd (get_top_users db (-1) 0 sort_by sort_order)) = length rows
  /\ forall name n,
       (name, n) ∈ get_top_users db (-1) 0 sort_by sort_order
       <-> n = length (filter (fun p => canonical_name p = name) rows)
           /\ (0 < n)%nat.
Proof.
  intros Hr rows. pose proof (reachable_consistent db Hr) as Hc.
  rewrite get_top_users_eq, limit_offset_unbounded by lia.
  rewrite joined_rows_consistent by done. fold rows.
  split.
  - rewrite <- (group_count_sum canonical_name rows).
    apply list_sum_Permutation, Permutation_map, merge_sort_Permutation.
  - intros name n. rewrite merge_sort_elem. apply group_count_elem.
Qed.


(** ** Recording a play and finding it again *)

Lemma add_play_plays db title user d c now :
  plays (add_play db title user d c now)
  = (plays db
     ++ [Play (plays_seq db + 1) now (fst (_resolve_canonical_user db user))
           title d c])%list.
Proof.
  unfold add_play.
  pose proof (resolve_plays db user) as Hp.
  pose proof (resolve_plays_seq db user) as Hs.
  destruct (_resolve_canonical_user db user) as [name db1]. simpl in *.
  by rewrite Hp, Hs.
Qed.


Lemma sorted_head_is_the_latest (l : list play) (new : play) (rest : list play) :
  merge_sort timestamp_desc l ≡ₚ (rest ++ [new])%list ->
  (forall p, p ∈ rest -> String.ltb (timestamp p) (timestamp new) = true) ->
  take 1 (merge_sort timestamp_desc l) = [new].
Proof.
  intros Hperm Hold.
  pose proof (merge_sort_strongly_sorted timestamp_desc l) as Hs.
  destruct (merge_sort timestamp_desc l) as [|h t].
  { apply Permutation_nil_l in Hperm. by destruct rest. }
  simpl. rewrite take_0. f_equal.
  apply StronglySorted_inv in Hs as [_ Hall].
  assert (h ∈ (rest ++ [new])%list) as Hh by (rewrite <- Hperm; left).
  apply elem_of_app in Hh as [Hh|Hh]; [|by apply list_elem_of_singleton in Hh].
  assert (new ∈ h :: t) as Hn.
  { rewrite Hperm. apply elem_of_app. right. left. }
  apply elem_of_cons in Hn as [->|Hn]; [done|].
  rewrite Forall_forall in Hall. apply Hall in Hn.
  unfold timestamp_desc in Hn.
  rewrite (String_ltb_not_leb _ _ (Hold h Hh)) in Hn. done.
Qed.

(** X10: when every play in the database is older than [now], the play
    [add_play] records at [now] is what [get_last_plays] returns first:
    with limit 1, offset 0 and no filter the result is exactly that play,
    under its resolved performer. *)
Theorem last_play_is_the_one_just_added db title user d c now :
  (forall p, p ∈ plays db -> String.ltb (timestamp p) now = true) ->
  fst (get_last_plays (add_play db title user d c now) 1 0 None None)
  = [(now, fst (_resolve_canonical_user db user), title, c)].
Proof.
  intros Hold. rewrite get_last_plays_eq. simpl.
  rewrite filter_all by (intros p _; by split).
  unfold Sqlite.limit_offset. simpl. rewrite drop_0.
  change (Pos.to_nat 1) with 1%nat.
  rewrite (sorted_head_is_the_latest _
             (Play (plays_seq db + 1) now
                   (fst (_resolve_canonical_user db user)) title d c)
             (plays db)); [done| |done].
  rewrite merge_sort_Permutation. by rewrite add_play_plays.
Qed.




(** ** The alias table *)

(** X12: [set_user_alias] followed by [get_user_aliases] shows the pair,
    and it is the only pair for that alias; [remove_user_alias] leaves no
    pair for it; pairs of other aliases are as before in both cases.  An
    alias occurs once in the table.  Removing an alias that is not there
    changes nothing, and so does removing it a second time.  The target of
    a new alias gets its row in [users]. *)
Theorem alias_table_round_trip db alias canonical_user :
  (alias, canonical_user)
    ∈ get_user_aliases (set_user_alias db alias canonical_user)
  /\ (forall c,
        (alias, c) ∈ get_user_aliases (set_user_alias db alias canonical_user)
        -> c = canonical_user)
  /\ (forall c, (alias, c) ∉ get_user_aliases (remove_user_alias db alias))
  /\ (forall a c, a <> alias ->
        ((a, c) ∈ get_user_aliases (set_user_alias db alias canonical_user)
         <-> (a, c) ∈ get_user_aliases db)
        /\ ((a, c) ∈ get_user_aliases (remove_user_alias db alias)
            <-> (a, c) ∈ get_user_aliases db))
  /\ NoDup (map fst (get_user_aliases db))
  /\ (user_aliases db !! alias = None -> remove_user_alias db alias = db)
  /\ remove_user_alias (remove_user_alias db alias) alias
     = remove_user_alias db alias
  /\ canonical_user ∈ users (set_user_alias db alias canonical_user).
Proof.
  unfold get_user_aliases.
  split; [|split; [|split; [|split; [|split; [|split; [|split]]]]]].
  - apply elem_of_map_to_list. simpl. apply lookup_insert_eq.
  - intros c Hc. apply elem_of_map_to_list in Hc. simpl in Hc.
    rewrite lookup_insert_eq in Hc. congruence.
  - intros c Hc. apply elem_of_map_to_list in Hc. simpl in Hc.
    by rewrite lookup_delete_eq in Hc.
  - intros a c Hne. rewrite !elem_of_map_to_list. simpl.
    by rewrite lookup_insert_ne, lookup_delete_ne.
  - apply NoDup_fst_map_to_list.
  - intros Hnone. destruct db as [u al ps n]. unfold remove_user_alias,
      set_user_aliases. simpl in *. f_equal. by apply delete_id.
  - unfold remove_user_alias, set_user_aliases. simpl. f_equal.
    apply delete_id. apply lookup_delete_eq.
  - simpl. apply elem_of_union_l. by apply elem_of_singleton.
Qed.

(** ** Bulk importer: more properties *)

Lemma read_entries_skip before line after :
  read_entries [line] = inr (∅, []) ->
  read_entries (before ++ line :: after) = read_entries (before ++ after).
Proof.
  intros Hskip. induction before as [|l before IH]; simpl.
  - destruct line as [e|]; [|done]. simpl in Hskip. unfold try_bind in *.
    destruct (entry_user e) as [|user]; [done|].
    destruct (String.eqb user ""); [done|]. simpl in Hskip.
    injection Hskip as _ Hes. done.
  - destruct l as [e|]; [|done]. unfold try_bind.
    destruct (entry_user e) as [|user]; [done|]. by rewrite IH.
Qed.

(** X13: a line that does not decode, and an entry whose "user" is
    missing or blank after stripping, do not count: with or without such a
    line at any place in the log the import does the same, whatever else
    the entry holds or lacks. *)
Theorem import_ignores_broken_and_blank_lines db before line after :
  (line = None
   \/ exists items,
        line = Some (Py.JObj items)
        /\ (Py.dict_lookup "user" items = None
            \/ exists s, Py.dict_lookup "user" items = Some (Py.JStr s)
                         /\ Py.strip s = "")) ->
  populate_from_log db (Some (before ++ line :: after)%list)
  = populate_from_log db (Some (before ++ after)%list).
Proof.
  intros Hline. unfold populate_from_log.
  rewrite read_entries_skip; [done|].
  destruct Hline as [->|(items & -> & [Hnone|(s & Hs & Hblank)])]; [done| |].
  - simpl. unfold try_bind. by rewrite Hnone.
  - simpl. unfold try_bind. by rewrite Hs; simpl; rewrite Hblank.
Qed.

Lemma import_entries_triples user_map entries : forall db db',
  NoDup (map triple (plays db)) ->
  import_entries user_map entries db = inr db' ->
  NoDup (map triple (plays db')).
Proof.
  induction entries as [|e es IH]; intros db db' Hnd; simpl; unfold try_bind.
  - by intros [= <-].
  - destruct (import_entry user_map e db) as [|db1] eqn:He; [done|].
    apply import_entry_inr in He
      as (user & c & tsj & titlej & ts & title & _ & _ & _ & _ & _ & _ & Hcase).
    destruct Hcase
      as [[_ ->]|[Hno (dj & d & ts' & title' & _ & _ & Ht1 & Ht2 & ->)]].
    + by apply IH.
    + apply IH. simpl. rewrite map_app. simpl.
      apply NoDup_app. split; [done|]. split; [|apply NoDup_singleton].
      intros x Hx Hx'. apply list_elem_of_singleton in Hx'. subst x.
      apply list_elem_of_In, in_map_iff in Hx as (p & Htr & Hp).
      apply Hno. unfold play_exists. apply Exists_exists.
      exists p. split; [by apply list_elem_of_In|].
      unfold triple in Htr. simpl in Htr. injection Htr as H1 H2 H3.
      by rewrite Ht1, Ht2, H1, H2, H3.
Qed.

Lemma populate_from_log_plays_cases db lines :
  (plays (state_after (populate_from_log db (Some lines))) = plays db)
  \/ exists user_map es db1,
       plays db1 = plays db
       /\ import_entries user_map es db1
          = inr (state_after (populate_from_log db (Some lines))).
Proof.
  unfold populate_from_log.
  destruct (read_entries lines) as [e|[us es]]; [by left|].
  destruct (resolve_users_acc (elements us) ∅ db) as (_ & Hp & _ & _ & _).
  unfold resolve_users.
  destruct (foldl _ _ (elements us)) as [m db1]. simpl in *.
  destruct (import_entries m es db1) as [e|db2] eqn:Hi; simpl; [by left|].
  right. by exists m, es, db1.
Qed.

(** X14: the importer never creates a duplicate.  When no two plays of
    the database agree in time stamp, canonical name and song, the same is
    true after an import, also of the plays it took from one log. *)
Theorem import_keeps_triples_distinct db log_file :
  NoDup (map triple (plays db)) ->
  NoDup (map triple (plays (state_after (populate_from_log db log_file)))).
Proof.
  intros Hnd. destruct log_file as [lines|]; [|done].
  destruct (populate_from_log_plays_cases db lines)
    as [->|(m & es & db1 & Hp & Hi)]; [done|].
  eapply import_entries_triples; [|exact Hi]. by rewrite Hp.
Qed.




Lemma user_map_of_lookup aliases names : forall acc u,
  u ∈ names \/ acc !! u = Some (default u (aliases !! u)) ->
  user_map_of aliases acc names !! u = Some (default u (aliases !! u)).
Proof.
  unfold user_map_of.
  induction names as [|x names IH]; intros acc u H; simpl.
  - destruct H as [H|H]; [by apply elem_of_nil in H|done].
  - apply IH. destruct (decide (u = x)) as [->|Hne].
    + right. apply lookup_insert_eq.
    + destruct H as [H|H].
      * apply elem_of_cons in H as [?|?]; [done|by left].
      * right. by rewrite lookup_insert_ne.
Qed.

Lemma resolve_default db u :
  fst (_resolve_canonical_user db u) = default u (user_aliases db !! u).
Proof. unfold _resolve_canonical_user. by destruct (user_aliases db !! u). Qed.

Lemma well_formed_entry_user e :
  well_formed_entry e -> exists u, entry_user e = inr u.
Proof.
  intros (items & user & ts & title & -> & Hu & _). simpl. rewrite Hu.
  simpl. eauto.
Qed.

Lemma read_entries_well_formed lines :
  (forall e, Some e ∈ lines -> well_formed_entry e) ->
  exists us es,
    read_entries lines = inr (us, es)
    /\ (forall e, e ∈ es -> Some e ∈ lines)
    /\ (forall e u, Some e ∈ lines -> entry_user e = inr u -> u <> "" ->
        e ∈ es /\ u ∈ us).
Proof.
  induction lines as [|l lines IH]; intros Hwf.
  - exists ∅, []. split; [done|]. split.
    + intros e He. by apply elem_of_nil in He.
    + intros e u He. by apply elem_of_nil in He.
  - destruct IH as (us & es & Hread & Hes & Hall).
    { intros e He. apply Hwf. by right. }
    destruct l as [e|]; simpl.
    + destruct (well_formed_entry_user e) as [u Hu]; [apply Hwf; left|].
      unfold try_bind. rewrite Hu.
      destruct (String.eqb_spec u "") as [->|Hne].
      * exists us, es. split; [done|]. split.
        { intros e' He'. right. by apply Hes. }
        intros e' u' He' Hu' Hne'. apply elem_of_cons in He' as [Heq|He'].
        { injection Heq as ->. congruence. }
        by apply Hall.
      * rewrite Hread. exists ({[u]} ∪ us), (e :: es). split; [done|]. split.
        { intros e' He'. apply elem_of_cons in He' as [->|He']; [left|].
          right. by apply Hes. }
        intros e' u' He' Hu' Hne'. apply elem_of_cons in He' as [Heq|He'].
        { injection Heq as ->. split; [left|].
          apply elem_of_union_l, elem_of_singleton. congruence. }
        destruct (Hall e' u' He' Hu' Hne'). split; [by right|].
        by apply elem_of_union_r.
    + exists us, es. split; [done|]. split.
      { intros e' He'. right. by apply Hes. }
      intros e' u' He' Hu' Hne'. apply elem_of_cons in He' as [?|He']; [done|].
      by apply Hall.
Qed.

Lemma read_entries_users lines : forall us es,
  read_entries lines = inr (us, es) ->
  forall e, e ∈ es -> exists u, entry_user e = inr u /\ u ∈ us.
Proof.
  induction lines as [|l lines IH]; intros us es Hread e He.
  - injection Hread as <- <-. by apply elem_of_nil in He.
  - destruct l as [e0|]; simpl in Hread; [|by eapply IH].
    unfold try_bind in Hread.
    destruct (entry_user e0) as [|u0] eqn:Hu0; [done|].
    destruct (String.eqb u0 ""); [by eapply IH|].
    destruct (read_entries lines) as [|[us' es']] eqn:Hr; [done|].
    injection Hread as <- <-.
    apply elem_of_cons in He as [->|He].
    + exists u0. split; [done|]. apply elem_of_union_l. by apply elem_of_singleton.
    + destruct (IH us' es' eq_refl e He) as (u & Hu & Hin).
      exists u. split; [done|]. by apply elem_of_union_r.
Qed.

Lemma import_entry_well_formed user_map e db u :
  well_formed_entry e -> entry_user e = inr u -> is_Some (user_map !! u) ->
  exists db', import_entry user_map e db = inr db'.
Proof.
  intros (items & user & ts & title & -> & Hu & Hts & Htitle & Hd) Heu [c Hc].
  unfold import_entry, try_bind. rewrite Heu, Hc. simpl.
  rewrite Hts, Htitle. simpl.
  case_decide; [eauto|].
  destruct (Py.dict_lookup "duration" items) as [[| |z|f| | |]|]; simpl;
    try done; eauto.
  - rewrite Hd. eauto.
  - destruct f; eauto.
Qed.

Lemma import_entries_well_formed user_map entries : forall db,
  (forall e, e ∈ entries ->
     well_formed_entry e
     /\ exists u, entry_user e = inr u /\ is_Some (user_map !! u)) ->
  exists db', import_entries user_map entries db = inr db'.
Proof.
  induction entries as [|e es IH]; intros db Hall; simpl; [eauto|].
  destruct (Hall e) as (Hwf & u & Hu & Hm); [left|].
  destruct (import_entry_well_formed user_map e db u Hwf Hu Hm) as [db1 H1].
  unfold try_bind. rewrite H1. apply IH. intros e' He'. apply Hall. by right.
Qed.

Lemma import_entries_present user_map entries db db' e :
  import_entries user_map entries db = inr db' -> e ∈ entries ->
  exists user c tsj titlej ts title,
    entry_user e = inr user
    /\ user_map !! user = Some c
    /\ entry_item "timestamp" e = inr tsj
    /\ entry_item "song" e = inr titlej
    /\ Sqlite.bind tsj = inr ts
    /\ Sqlite.bind titlej = inr title
    /\ play_exists ts c title db'.
Proof.
  intros Hi He.
  pose proof (import_entries_all_present _ _ _ _ Hi e He) as Hagain.
  apply import_entry_inr in Hagain
    as (user & c & tsj & titlej & ts & title
        & Hu & Hm & Htsj & Htitlej & Hts & Htitle & Hcase).
  exists user, c, tsj, titlej, ts, title. do 6 (split; [done|]).
  destruct Hcase as [[Hex _]|[_ (dj & d & ts' & title' & _ & _ & _ & _ & Heq)]];
    [done|].
  apply (f_equal (fun x => length (plays x))) in Heq. simpl in Heq.
  rewrite length_app in Heq. simpl in Heq. lia.
Qed.




(** X16: a log all of whose entries are well formed (an object with
    strings for "user", "timestamp" and "song", and a number for "duration"
    when it has one) is imported without an exception, whatever else its
    lines are when they do not decode.  Afterwards every entry with a
    non-blank user has its play in the database, under the name its
    stripped user resolved to before the import. *)
Theorem well_formed_log_is_imported db lines :
  (forall e, Some e ∈ lines -> well_formed_entry e) ->
  exists db',
    populate_from_log db (Some lines) = Returned db'
    /\ forall items user ts title,
         Some (Py.JObj items) ∈ lines ->
         Py.dict_lookup "user" items = Some (Py.JStr user) ->
         Py.strip user <> "" ->
         Py.dict_lookup "timestamp" items = Some (Py.JStr ts) ->
         Py.dict_lookup "song" items = Some (Py.JStr title) ->
         exists p,
           p ∈ plays db'
           /\ timestamp p = ts
           /\ canonical_name p = fst (_resolve_canonical_user db (Py.strip user))
           /\ song p = title.
Proof.
  intros Hwf.
  destruct (read_entries_well_formed lines Hwf) as (us & es & Hread & Hes & Hall).
  rewrite populate_from_log_eq, Hread. cbv zeta.
  set (m := user_map_of (user_aliases db) ∅ (elements us)).
  set (db1 := set_users _ db).
  assert (Hm : forall e u, Some e ∈ lines -> entry_user e = inr u -> u <> "" ->
            m !! u = Some (fst (_resolve_canonical_user db u))).
  { intros e u He Hu Hne. rewrite resolve_default.
    apply user_map_of_lookup. left. apply elem_of_elements.
    by apply (Hall e u). }
  assert (Hknown : forall e, e ∈ es ->
            well_formed_entry e
            /\ exists u, entry_user e = inr u /\ is_Some (m !! u)).
  { intros e He. split; [by apply Hwf, Hes|].
    destruct (read_entries_users lines us es Hread e He) as (u & Hu & Hin).
    exists u. split; [done|]. eexists.
    apply user_map_of_lookup. left. by apply elem_of_elements. }
  destruct (import_entries_well_formed m es db1 Hknown) as [db2 Hi].
  rewrite Hi. exists db2. split; [done|].
  intros items user ts title Hin Hu Hne Hts Htitle.
  assert (Heu : entry_user (Py.JObj items) = inr (Py.strip user))
    by (simpl; by rewrite Hu).
  destruct (Hall _ _ Hin Heu Hne) as [He _].
  destruct (import_entries_present _ _ _ _ _ Hi He)
    as (user' & c & tsj & titlej & tsv & titlev
        & Hu' & Hc & Htsj & Htitlej & Hb1 & Hb2 & Hex).
  rewrite Heu in Hu'. injection Hu' as <-.
  rewrite (Hm _ _ Hin Heu Hne) in Hc. injection Hc as <-.
  simpl in Htsj, Htitlej. rewrite Hts in Htsj. rewrite Htitle in Htitlej.
  injection Htsj as <-. injection Htitlej as <-.
  simpl in Hb1, Hb2. injection Hb1 as <-. injection Hb2 as <-.
  unfold play_exists in Hex. apply Exists_exists in Hex as (p & Hp & H1 & H2 & H3).
  simpl in H1, H3. exists p. split; [done|].
  split; [congruence|]. split; [done|congruence].
Qed.


(** ** The history page: properties *)

Lemma period_songs_valid db period :
  period ∈ ["day"; "month"; "year"] ->
  exists rows, period_songs db period = inr rows.
Proof.
  intros Hin. unfold period_songs.
  repeat (apply elem_of_cons in Hin as [->|Hin]; [by eexists|]).
  by apply elem_of_nil in Hin.
Qed.

Lemma slice_to_take {A} (n : Z) (rows : list A) :
  0 <= n -> slice_to n rows = take (Z.to_nat n) rows.
Proof. intros Hn. unfold slice_to. destruct (Z.ltb_spec n 0); [lia|done]. Qed.

(** The rows and the count the page works with. *)
Lemma history_plays db a :
  Sqlite.int64 (limit a + 1) = true -> Sqlite.int64 (offset a) = true ->
  limit a <> 0 -> top_users_limit a <> 0 ->
  Sqlite.int64 (top_users_limit a) = true ->
  Sqlite.int64 (top_users_offset a) = true ->
  let db2 := snd (_build_filter_clause db (user_filter a) (date_filter a)) in
  let full :=
    fst (get_last_plays db (limit a + 1) (offset a) (date_filter a)
           (user_filter a)) in
  let count :=
    Z.of_nat (fst (get_plays_count db (date_filter a) (user_filter a))) in
  let users_count := Z.of_nat (get_top_users_count db2) in
  let page := fst (history db a) in
  flashed page = None
  /\ last_plays page = slice_to (limit a) full
  /\ has_more page = (Z.of_nat (length full) >? limit a)
  /\ has_next page = has_more page
  /\ total_count page = count
  /\ current_page page = offset a / limit a + 1
  /\ total_pages page = (count + limit a - 1) / limit a
  /\ has_previous page = (current_page page >? 1)
  /\ next_offset page = offset a + limit a
  /\ prev_offset page = Z.max 0 (offset a - limit a)
  /\ top_songs page = get_top_songs db2 10
  /\ top_users page
     = get_top_users db2 (top_users_limit a) (top_users_offset a)
         (top_users_sort a) (top_users_order a)
  /\ top_users_total_count page = users_count
  /\ top_users_current_page page = top_users_offset a / top_users_limit a + 1
  /\ top_users_total_pages page
     = (users_count + top_users_limit a - 1) / top_users_limit a
  /\ top_users_has_next page
     = (top_users_current_page page <? top_users_total_pages page)
  /\ top_users_next_offset page = top_users_offset a + top_users_limit a
  /\ distinct_users page = get_distinct_users db2
  /\ distinct_dates page = get_distinct_dates db2.
Proof.
  intros H1 H2 Hl Hul H3 H4. cbv zeta.
  unfold history.
  rewrite (get_last_plays_eq db (limit a + 1)). cbv iota beta.
  unfold bound. rewrite H1, H2, H3, H4. cbn [page_bind].
  pose proof (get_plays_count_eq
    (snd (_build_filter_clause db (user_filter a) (date_filter a)))
    (date_filter a) (user_filter a)) as Hc.
  rewrite build_filter_clause_again, build_filter_clause_plays in Hc.
  rewrite (build_filter_clause_same_aliases _ db) in Hc
    by apply build_filter_clause_user_aliases.
  rewrite Hc. cbv iota beta.
  rewrite (get_plays_count_eq db). cbn [fst snd].
  unfold floordiv.
  destruct (Z.eqb_spec (limit a) 0); [done|].
  destruct (Z.eqb_spec (top_users_limit a) 0); [done|].
  cbn [page_bind].
  destruct (period_songs_valid
    (snd (_build_filter_clause db (user_filter a) (date_filter a))) "day")
    as [r1 ->]; [set_solver|].
  destruct (period_songs_valid
    (snd (_build_filter_clause db (user_filter a) (date_filter a))) "month")
    as [r2 ->]; [set_solver|].
  destruct (period_songs_valid
    (snd (_build_filter_clause db (user_filter a) (date_filter a))) "year")
    as [r3 ->]; [set_solver|].
  cbn [page_bind fst flashed last_plays has_more has_next total_count
       current_page total_pages has_previous next_offset prev_offset
       top_songs top_users top_users_total_count top_users_current_page
       top_users_total_pages top_users_has_next top_users_next_offset
       distinct_users distinct_dates].
  by repeat split.
Qed.


Lemma limit_offset_length {A} (lim off : Z) (rows : list A) :
  0 <= lim ->
  length (Sqlite.limit_offset lim off rows)
  = Nat.min (Z.to_nat lim) (length rows - Z.to_nat off).
Proof.
  intros Hl. unfold Sqlite.limit_offset.
  destruct (Z.ltb_spec lim 0); [lia|].
  by rewrite length_take, length_drop.
Qed.

Lemma limit_offset_nonempty {A} (lim off : Z) (rows : list A) :
  0 < lim -> 0 <= off ->
  Sqlite.limit_offset lim off rows <> [] <-> off < Z.of_nat (length rows).
Proof.
  intros Hl Ho.
  pose proof (limit_offset_length lim off rows ltac:(lia)) as Hlen.
  destruct (Sqlite.limit_offset lim off rows) as [|x l]; simpl in Hlen.
  - split; [done|]. lia.
  - split; [|done]. lia.
Qed.

(** X17: when no step of the [try] block raises, that is when [limit] and
    [top_users_limit] are not 0 and [limit + 1], [offset],
    [top_users_limit] and [top_users_offset] fit in 64 bits, and moreover
    [limit] is positive and [offset] is not negative, the history page
    flashes nothing and shows exactly the rows [get_last_plays] returns for
    that page, although it asks for one row more; it offers a next page
    exactly when plays remain beyond this one, which is exactly when the
    page at [next_offset] is not empty; it offers a previous page exactly
    when the offset is at least one page; and [total_pages] is the ceiling
    of the count over the page size.  (With [limit] or [top_users_limit] 0
    the page is the default one, see X18.) *)
Theorem history_page_of_plays db a :
  0 < limit a -> 0 <= offset a ->
  Sqlite.int64 (limit a + 1) = true -> Sqlite.int64 (offset a) = true ->
  top_users_limit a <> 0 ->
  Sqlite.int64 (top_users_limit a) = true ->
  Sqlite.int64 (top_users_offset a) = true ->
  let page := fst (history db a) in
  let count :=
    Z.of_nat (fst (get_plays_count db (date_filter a) (user_filter a))) in
  flashed page = None
  /\ last_plays page
     = fst (get_last_plays db (limit a) (offset a) (date_filter a)
              (user_filter a))
  /\ total_count page = count
  /\ (has_next page = true <-> offset a + limit a < count)
  /\ (has_next page = true
      <-> fst (get_last_plays db (limit a) (next_offset page) (date_filter a)
                 (user_filter a)) <> [])
  /\ (has_previous page = true <-> limit a <= offset a)
  /\ count <= total_pages page * limit a < count + limit a.
Proof.
  intros Hl Ho H1 H2 Hul H3 H4 page count.
  destruct (history_plays db a H1 H2 ltac:(lia) Hul H3 H4)
    as (Hf & Hlp & Hmore & Hnext & Htc & Hcp & Htp & Hprev & Hno & _).
  fold page in Hf, Hlp, Hmore, Hnext, Htc, Hcp, Htp, Hprev, Hno.
  fold count in Htc, Htp.
  set (w := fst (_build_filter_clause db (user_filter a) (date_filter a))).
  set (L := merge_sort timestamp_desc (filter (satisfies w) (plays db))).
  assert (Hcount : count = Z.of_nat (length L)).
  { subst count. rewrite get_plays_count_eq. simpl. f_equal. symmetry.
    apply Permutation_length, merge_sort_Permutation. }
  assert (Hfull : forall lim off,
    fst (get_last_plays db lim off (date_filter a) (user_filter a))
    = map (fun p => (timestamp p, canonical_name p, song p, completed p))
        (Sqlite.limit_offset lim off L)).
  { intros lim off. by rewrite get_last_plays_eq. }
  rewrite Hfull in Hlp, Hmore.
  assert (Hhas : has_next page = true <-> offset a + limit a < count).
  { rewrite Hnext, Hmore, length_map, limit_offset_length by lia.
    rewrite Z.gtb_ltb, Z.ltb_lt, Hcount. lia. }
  split; [done|]. split.
  { rewrite Hlp, Hfull, slice_to_take by lia.
    change (map ?f ?l) with (f <$> l). rewrite <- fmap_take. f_equal.
    unfold Sqlite.limit_offset.
    destruct (Z.ltb_spec (limit a + 1) 0); [lia|].
    destruct (Z.ltb_spec (limit a) 0); [lia|].
    rewrite take_take. f_equal. lia. }
  split; [done|]. split; [done|]. split.
  { rewrite Hhas, Hfull, Hno.
    assert (forall (l : list play),
      map (fun p => (timestamp p, canonical_name p, song p, completed p)) l
      <> [] <-> l <> []) as Hmap by (by intros [|? ?]).
    rewrite Hmap, limit_offset_nonempty by lia. by rewrite Hcount. }
  split.
  { rewrite Hprev, Hcp, Z.gtb_ltb, Z.ltb_lt.
    split; intros H.
    - destruct (Z.lt_ge_cases (offset a) (limit a)) as [Hlt|]; [|lia].
      rewrite Z.div_small in H by lia. lia.
    - assert (1 <= offset a / limit a); [|lia].
      apply Z.div_le_lower_bound; lia. }
  rewrite Htp.
  pose proof (Z.div_mod (count + limit a - 1) (limit a) ltac:(lia)) as Hdm.
  pose proof (Z.mod_pos_bound (count + limit a - 1) (limit a) Hl) as Hb.
  lia.
Qed.


(** X18: when the [try] block of the history page raises, the page is
    the default one: every list empty, counts 0, one page, the error
    flashed.  A page size of 0, for the plays or for the top users, does
    that with [ZeroDivisionError], and a limit or offset beyond 64 bits with
    the overflow of the bind.  In every case the database is left as the
    resolver of the performer filter leaves it. *)
Theorem history_error_page db a :
  (forall e, flashed (fst (history db a)) = Some e ->
             fst (history db a) = history_defaults e)
  /\ snd (history db a)
     = snd (_build_filter_clause db (user_filter a) (date_filter a))
  /\ (Sqlite.int64 (limit a + 1) = false \/ Sqlite.int64 (offset a) = false ->
      fst (history db a) = history_defaults BindOverflow)
  /\ (Sqlite.int64 (limit a + 1) = true -> Sqlite.int64 (offset a) = true ->
      limit a = 0 ->
      fst (history db a) = history_defaults ZeroDivisionError)
  /\ (Sqlite.int64 (limit a + 1) = true -> Sqlite.int64 (offset a) = true ->
      limit a <> 0 ->
      Sqlite.int64 (top_users_limit a) = true ->
      Sqlite.int64 (top_users_offset a) = true ->
      top_users_limit a = 0 ->
      fst (history db a) = history_defaults ZeroDivisionError).
Proof.
  split; [|split; [apply history_state|]].
  - intros e. unfold history.
    destruct (get_last_plays _ _ _ _ _) as [full db1].
    destruct (page_bind _ _); [by intros [= ->]|].
    destruct (get_plays_count _ _ _) as [count db2].
    destruct (page_bind _ _) as [e'|page] eqn:Hrest; [by intros [= ->]|].
    simpl. intros Hfl. exfalso. revert Hrest Hfl.
    unfold page_bind.
    repeat match goal with
           | |- context [match ?x with inl _ => _ | inr _ => _ end] =>
               destruct x; [done|]
           end.
    by intros [= <-].
  - unfold history.
    destruct (get_last_plays _ _ _ _ _) as [full db1].
    split; [|split].
    + unfold bound. intros [-> | ->]; [done|].
      by destruct (Sqlite.int64 (limit a + 1)).
    + intros H1 H2 H0. unfold bound. rewrite H1, H2. cbn [page_bind].
      destruct (get_plays_count _ _ _) as [count db2].
      unfold floordiv. rewrite H0. done.
    + intros H1 H2 Hl H3 H4 H0. unfold bound. rewrite H1, H2, H3, H4.
      cbn [page_bind].
      destruct (get_plays_count _ _ _) as [count db2].
      unfold floordiv. rewrite H0.
      destruct (Z.eqb_spec (limit a) 0); [done|]. done.
Qed.

Lemma pages_before_the_last (k total lim : Z) :
  0 < lim -> 0 <= k ->
  (k + 1 <? (total + lim - 1) / lim) = true <-> (k + 1) * lim < total.
Proof.
  intros Hl Hk. rewrite Z.ltb_lt.
  pose proof (Z.div_mod (total + lim - 1) lim ltac:(lia)) as Hdm.
  pose proof (Z.mod_pos_bound (total + lim - 1) lim Hl) as Hb.
  split; intros H; nia.
Qed.

Lemma get_top_users_length db sort_by sort_order :
  consistent db ->
  exists full,
    length full = get_top_users_count db
    /\ forall lim off,
         get_top_users db lim off sort_by sort_order
         = Sqlite.limit_offset lim off full.
Proof.
  intros Hc. eexists. split; [|intros lim off; apply get_top_users_eq].
  rewrite (Permutation_length (merge_sort_Permutation _ _)).
  rewrite group_count_length, joined_rows_consistent by done. done.
Qed.

(** X19: in a database the operations reach, when no step of the [try]
    block raises, that is when [limit] is not 0 and [limit + 1], [offset],
    [top_users_limit] and [top_users_offset] fit in 64 bits, and moreover
    [top_users_limit] is positive and [top_users_offset] is not negative
    and a multiple of [top_users_limit], the history page offers a next
    page of top users exactly when the page of top users at
    [top_users_next_offset] is not empty; the rows it shows are those of
    [get_top_users] at the given offset and the total it shows is
    [get_top_users_count].  (With [limit] 0 the page is the default one,
    see X18.) *)
Theorem history_top_users_next_page db a :
  reachable db ->
  limit a <> 0 ->
  Sqlite.int64 (limit a + 1) = true -> Sqlite.int64 (offset a) = true ->
  Sqlite.int64 (top_users_limit a) = true ->
  Sqlite.int64 (top_users_offset a) = true ->
  0 < top_users_limit a -> 0 <= top_users_offset a ->
  top_users_offset a mod top_users_limit a = 0 ->
  let page := fst (history db a) in
  let db' := snd (history db a) in
  top_users page
  = get_top_users db' (top_users_limit a) (top_users_offset a)
      (top_users_sort a) (top_users_order a)
  /\ top_users_total_count page = Z.of_nat (get_top_users_count db')
  /\ (top_users_has_next page = true
      <-> get_top_users db' (top_users_limit a) (top_users_next_offset page)
            (top_users_sort a) (top_users_order a) <> []).
Proof.
  intros Hr Hl H1 H2 H3 H4 Hul Huo Hmod page db'.
  destruct (history_plays db a H1 H2 Hl ltac:(lia) H3 H4)
    as (_ & _ & _ & _ & _ & _ & _ & _ & _ & _ & _
        & Htu & Htc & Hcp & Htp & Hhn & Hno & _).
  fold page in Htu, Htc, Hcp, Htp, Hhn, Hno.
  subst db'. rewrite history_state.
  set (db2 := snd (_build_filter_clause db (user_filter a) (date_filter a)))
    in *.
  assert (consistent db2) as Hc.
  { apply consistent_build_filter_clause. by apply reachable_consistent. }
  destruct (get_top_users_length db2 (top_users_sort a) (top_users_order a) Hc)
    as (full & Hlen & Hfull).
  split; [done|]. split; [done|].
  rewrite Hhn, Hcp, Htp, Hfull, Hno.
  rewrite pages_before_the_last by (try apply Z.div_pos; lia).
  rewrite limit_offset_nonempty by lia. rewrite Hlen.
  pose proof (Z.div_mod (top_users_offset a) (top_users_limit a) ltac:(lia)).
  split; intros; nia.
Qed.

End PlayDatabase.

(** ** The theorems at concrete databases *)

(** The hypothesis of C7 holds for LIMIT -1 on [two_singers]. *)
Lemma plays_count_is_length_of_unbounded_last_plays_witness :
  -1 < 0
  /\ fst (get_plays_count strftime_iso two_singers
            (Some "2024-05-06") (Some "alice"))
     = length (fst (get_last_plays strftime_iso two_singers (-1) 0
                      (Some "2024-05-06") (Some "alice"))).
Proof.
  split; [lia|].
  exact (proj1 (plays_count_is_length_of_unbounded_last_plays strftime_iso
                  two_singers (Some "2024-05-06") (Some "alice") (-1)
                  eq_refl)).
Defined.

Lemma two_singers_reachable strftime real_text :
  reachable strftime real_text two_singers.
Proof. unfold two_singers. do 3 apply reach_add_play. apply reach_init_db. Defined.





(** ** Scenarios *)

Example top_songs_scenario :
  get_top_songs
    (add_play
       (add_play
          (add_play init_db "Don't Stop Believin'" "alice" Sqlite.SNull true
             "2024-05-06 01:00:00")
          "Livin' on a Prayer" "bob" Sqlite.SNull true "2024-05-06 01:05:00")
       "Don't Stop Believin'" "alice" Sqlite.SNull true "2024-05-06 01:10:00")
    1
  = [("Don't Stop Believin'", 2%nat)].
Proof. by vm_compute. Qed.

Example record_then_last_play :
  fst (get_last_plays strftime_iso
         (add_play (set_user_alias init_db "al" "alice") "X" "al" Sqlite.SNull
            true "2024-05-06 01:00:00")
         1 0 None None)
  = [("2024-05-06 01:00:00", "alice", "X", true)].
Proof. by vm_compute. Qed.

Example plays_by_alias_scenario :
  fst (get_plays_by_user strftime_iso
         (add_play (set_user_alias init_db "al" "alice") "X" "al" Sqlite.SNull
            true "2024-05-06 01:00:00")
         (Some "alice") None)
  = [(1, "2024-05-06 01:00:00", "alice", "X", true)].
Proof. by vm_compute. Qed.

(** [get_plays_by_user] resolves the name and [_build_filter_clause]
    resolves the result once more: with al -> alice and alice -> bob it
    lists bob's plays for "al", where [get_last_plays] lists alice's. *)
Example plays_by_user_resolves_twice :
  let db :=
    add_play
      (set_user_alias
         (add_play (set_user_alias init_db "al" "alice") "X" "al" Sqlite.SNull
            true "2024-05-06 01:00:00")
         "alice" "bob")
      "Y" "bob" Sqlite.SNull true "2024-05-06 02:00:00" in
  fst (get_plays_by_user strftime_iso db (Some "al") None)
  = [(2, "2024-05-06 02:00:00", "bob", "Y", true)]
  /\ fst (get_last_plays strftime_iso db (-1) 0 None (Some "al"))
     = [("2024-05-06 01:00:00", "alice", "X", true)].
Proof. by vm_compute. Qed.

Example top_songs_today_scenario :
  get_top_songs_by_period strftime_iso two_singers "day" 10
  = inr [("Africa", 1%nat); ("Jolene", 1%nat)]
  /\ get_top_songs_by_period strftime_iso two_singers "month" 10
     = inr [("Africa", 2%nat); ("Jolene", 1%nat)]
  /\ get_top_songs_by_period strftime_iso two_singers "period_typo" 10
     = inl (Py.ValueError "Invalid period").
Proof. by vm_compute. Qed.

(** ** The further theorems at concrete databases *)

Lemma play_ids_are_unique_witness :
  reachable strftime_iso (fun _ => "0.0") two_singers
  /\ NoDup (map id (plays two_singers)).
Proof.
  split; [apply two_singers_reachable|].
  exact (proj1 (play_ids_are_unique strftime_iso (fun _ => "0.0") two_singers
                  (two_singers_reachable _ _))).
Defined.

Lemma reachable_names_are_registered_witness :
  reachable strftime_iso (fun _ => "0.0") two_singers
  /\ forall p, p ∈ plays two_singers ->
       canonical_name p ∈ users two_singers
       /\ canonical_name p ∈ get_distinct_users two_singers.
Proof.
  split; [apply two_singers_reachable|].
  exact (proj1 (reachable_names_are_registered strftime_iso (fun _ => "0.0")
                  two_singers (two_singers_reachable _ _))).
Defined.

Lemma top_users_counts_add_up_witness :
  reachable strftime_iso (fun _ => "0.0") two_singers
  /\ list_sum (map snd (get_top_users two_singers (-1) 0 "user" "ASC"))
     = length (filter (fun p => completed p = true) (plays two_singers)).
Proof.
  split; [apply two_singers_reachable|].
  exact (proj1 (top_users_counts_add_up strftime_iso (fun _ => "0.0")
                  two_singers "user" "ASC" (two_singers_reachable _ _))).
Defined.

Lemma two_singers_are_older :
  forall p, p ∈ plays two_singers ->
            String.ltb (timestamp p) "2024-05-08 00:00:00" = true.
Proof.
  intros p Hp. change (plays two_singers) with
    [Play 1 "2024-05-06 01:00:00" "alice" "Africa" Sqlite.SNull true;
     Play 2 "2024-05-06 02:00:00" "bob" "Jolene" Sqlite.SNull true;
     Play 3 "2024-05-07 03:00:00" "alice" "Africa" Sqlite.SNull true] in Hp.
  repeat (apply elem_of_cons in Hp as [->|Hp]; [reflexivity|]).
  by apply elem_of_nil in Hp.
Defined.

Lemma last_play_is_the_one_just_added_witness :
  (forall p, p ∈ plays two_singers ->
             String.ltb (timestamp p) "2024-05-08 00:00:00" = true)
  /\ fst (get_last_plays strftime_iso
            (add_play two_singers "Jolene" "alice" Sqlite.SNull true
               "2024-05-08 00:00:00") 1 0 None None)
     = [("2024-05-08 00:00:00",
         fst (_resolve_canonical_user two_singers "alice"), "Jolene", true)].
Proof.
  split; [exact two_singers_are_older|].
  exact (last_play_is_the_one_just_added strftime_iso two_singers "Jolene"
           "alice" Sqlite.SNull true "2024-05-08 00:00:00"
           two_singers_are_older).
Defined.


Lemma import_ignores_broken_and_blank_lines_witness :
  (@None Py.json = None
   \/ exists items,
        None = Some (Py.JObj items)
        /\ (Py.dict_lookup "user" items = None
            \/ exists s, Py.dict_lookup "user" items = Some (Py.JStr s)
                         /\ Py.strip s = ""))
  /\ populate_from_log (fun _ => "0.0") init_db
       (Some ([Some entry_with_timestamp] ++ None :: [Some entry_with_timestamp])%list)
     = populate_from_log (fun _ => "0.0") init_db
         (Some ([Some entry_with_timestamp] ++ [Some entry_with_timestamp])%list).
Proof.
  split; [by left|].
  exact (import_ignores_broken_and_blank_lines (fun _ => "0.0") init_db
           [Some entry_with_timestamp] None [Some entry_with_timestamp]
           (or_introl eq_refl)).
Defined.

Lemma import_keeps_triples_distinct_witness :
  NoDup (map triple (plays init_db))
  /\ NoDup (map triple
              (plays (state_after
                        (populate_from_log (fun _ => "0.0") init_db
                           (Some [Some entry_with_timestamp;
                                  Some entry_with_timestamp]))))).
Proof.
  assert (H : NoDup (map triple (plays init_db))) by constructor.
  split; [exact H|].
  exact (import_keeps_triples_distinct strftime_iso (fun _ => "0.0") init_db
           (Some [Some entry_with_timestamp; Some entry_with_timestamp]) H).
Defined.


Lemma entry_with_timestamp_well_formed :
  forall e, Some e ∈ [None; Some entry_with_timestamp] -> well_formed_entry e.
Proof.
  intros e He. apply elem_of_cons in He as [He|He]; [discriminate|].
  apply list_elem_of_singleton in He. injection He as ->.
  exists [("user", Py.JStr "bob"); ("song", Py.JStr "Jolene");
          ("timestamp", Py.JStr "2024-05-06 02:00:00")],
         "bob", "2024-05-06 02:00:00", "Jolene".
  repeat split.
Defined.

Lemma well_formed_log_is_imported_witness :
  (forall e, Some e ∈ [None; Some entry_with_timestamp] -> well_formed_entry e)
  /\ exists db',
       populate_from_log (fun _ => "0.0") init_db
         (Some [None; Some entry_with_timestamp]) = Returned db'.
Proof.
  split; [exact entry_with_timestamp_well_formed|].
  destruct (well_formed_log_is_imported strftime_iso (fun _ => "0.0") init_db
              [None; Some entry_with_timestamp]
              entry_with_timestamp_well_formed) as (db' & H & _).
  by exists db'.
Defined.

Lemma history_page_of_plays_witness :
  0 < limit first_page /\ 0 <= offset first_page
  /\ Sqlite.int64 (limit first_page + 1) = true
  /\ Sqlite.int64 (offset first_page) = true
  /\ top_users_limit first_page <> 0
  /\ Sqlite.int64 (top_users_limit first_page) = true
  /\ Sqlite.int64 (top_users_offset first_page) = true
  /\ flashed (fst (history strftime_iso two_singers first_page)) = None.
Proof.
  assert (H1 : 0 < limit first_page) by reflexivity.
  assert (H2 : 0 <= offset first_page) by discriminate.
  assert (H3 : top_users_limit first_page <> 0) by discriminate.
  split; [exact H1|]. split; [exact H2|]. do 2 (split; [reflexivity|]).
  split; [exact H3|]. do 2 (split; [reflexivity|]).
  exact (proj1 (history_page_of_plays strftime_iso two_singers first_page
                  H1 H2 eq_refl eq_refl H3 eq_refl eq_refl)).
Defined.

Lemma history_top_users_next_page_witness :
  reachable strftime_iso (fun _ => "0.0") two_singers
  /\ limit first_page <> 0
  /\ Sqlite.int64 (limit first_page + 1) = true
  /\ Sqlite.int64 (offset first_page) = true
  /\ Sqlite.int64 (top_users_limit first_page) = true
  /\ Sqlite.int64 (top_users_offset first_page) = true
  /\ 0 < top_users_limit first_page
  /\ 0 <= top_users_offset first_page
  /\ top_users_offset first_page mod top_users_limit first_page = 0
  /\ top_users_total_count (fst (history strftime_iso two_singers first_page))
     = Z.of_nat (get_top_users_count
                   (snd (history strftime_iso two_singers first_page))).
Proof.
  assert (H1 : limit first_page <> 0) by discriminate.
  assert (H2 : 0 < top_users_limit first_page) by reflexivity.
  assert (H3 : 0 <= top_users_offset first_page) by discriminate.
  split; [apply two_singers_reachable|].
  split; [exact H1|]. do 4 (split; [reflexivity|]).
  split; [exact H2|]. split; [exact H3|]. split; [reflexivity|].
  exact (proj1 (proj2 (history_top_users_next_page strftime_iso
                         (fun _ => "0.0") two_singers first_page
                         (two_singers_reachable _ _) H1 eq_refl eq_refl
                         eq_refl eq_refl H2 H3 eq_refl))).
Defined.

(** With an offset that is no multiple of the page size the page of top
    users can offer a next page that is empty: three performers, two rows a
    page, offset 1. *)
Example misaligned_offset_offers_an_empty_page :
  let db := add_play two_singers "Jolene" "carol" Sqlite.SNull true
              "2024-05-07 04:00:00" in
  let page :=
    fst (history strftime_iso db (HistoryArgs 1 0 None None 2 1 "count" "DESC")) in
  top_users_has_next page = true
  /\ get_top_users db 2 (top_users_next_offset page) "count" "DESC" = [].
Proof. by vm_compute. Qed.

(** The page asks for one row more than it shows: on [two_singers] with one
    row a page it shows the latest play and offers a next page. *)
Example history_first_page :
  let page := fst (history strftime_iso two_singers first_page) in
  last_plays page = [("2024-05-07 03:00:00", "alice", "Africa", true)]
  /\ has_next page = true
  /\ total_pages page = 3
  /\ distinct_users page = ["alice"; "bob"]
  /\ distinct_dates page = [Some "2024-05-07"; Some "2024-05-06"].
Proof. by vm_compute. Qed.
